(** * goa: HTTP service expressions and the API DSL

    A shallow embedding of [expr.HTTPServiceExpr] (path resolution, scheme
    collection, canonical endpoints, validation) and of the top-level DSL
    functions [dsl.API] and [dsl.Server], with the properties the design
    document states about them. *)

From Stdlib Require Import Ascii String.
From stdpp Require Import base option list strings gmap sorting.

Local Open Scope string_scope.
Local Open Scope list_scope.

(** ** Outcomes of Go calls

    A Go function either returns or panics (nil dereference, index out of
    range). *)
Inductive outcome (A : Type) : Type :=
  | Returned (a : A)
  | Panicked.
Arguments Returned {A} a.
Arguments Panicked {A}.

(** ** Go standard library: [strings] and [path] *)

Module strings.
(** [strings.HasPrefix(s, prefix)]. *)
Definition HasPrefix (s prefix : string) : bool := String.prefix prefix s.
End strings.

Module path.
Definition slash : ascii := "/"%char.
Definition dot : ascii := "."%char.

Definition is_slash (c : ascii) : bool := Ascii.eqb c slash.
Definition is_dot (c : ascii) : bool := Ascii.eqb c dot.

(** The output buffer of [Clean] is kept with its last byte first, so that
    [length out] is the write index [out.w] and the head is
    [out.index(out.w - 1)]. *)

(** [out.w--; for out.w > dotdot && out.index(out.w) != '/' { out.w-- }] *)
Fixpoint backtrack (dotdot : nat) (out : list ascii) : list ascii :=
  match out with
  | [] => []
  | c :: out' =>
      if (dotdot <? length out')%nat && negb (is_slash c)
      then backtrack dotdot out'
      else out'
  end.

(** The main loop of [path.Clean]: [p] is [path[r:]]. *)
Fixpoint Clean_loop (rooted : bool) (p : list ascii) (out : list ascii)
    (dotdot : nat) {struct p} : list ascii :=
  let element c p' :=
    (* real path element: add slash if needed, then copy the element *)
    let out1 :=
      if (rooted && negb (length out =? 1)%nat) ||
         (negb rooted && negb (length out =? 0)%nat)
      then slash :: out else out in
    (fix copy (q : list ascii) (o : list ascii) {struct q} : list ascii :=
       match q with
       | [] => o
       | d :: q' =>
           if is_slash d then Clean_loop rooted q' o dotdot
           else copy q' (d :: o)
       end) p' (c :: out1) in
  let dotdot_element p' :=
    (* .. element: remove to last / *)
    if (dotdot <? length out)%nat then
      Clean_loop rooted p' (backtrack dotdot out) dotdot
    else if negb rooted then
      let out1 := if (0 <? length out)%nat then slash :: out else out in
      let out2 := dot :: dot :: out1 in
      Clean_loop rooted p' out2 (length out2)
    else Clean_loop rooted p' out dotdot in
  match p with
  | [] => out
  | c :: p' =>
      if is_slash c then Clean_loop rooted p' out dotdot
      else if is_dot c then
        match p' with
        | [] => Clean_loop rooted p' out dotdot
        | c1 :: p'' =>
            if is_slash c1 then Clean_loop rooted p' out dotdot
            else if is_dot c1 then
              match p'' with
              | [] => dotdot_element p''
              | c2 :: _ =>
                  if is_slash c2 then dotdot_element p''
                  else element c p'
              end
            else element c p'
        end
      else element c p'
  end.

(** [path.Clean(path)]: the shortest path name equivalent to [path] by
    purely lexical processing. *)
Definition Clean (path : string) : string :=
  match list_ascii_of_string path with
  | [] => "."
  | c :: p' =>
      let rooted := is_slash c in
      let out :=
        if rooted then Clean_loop true p' [slash] 1
        else Clean_loop false (c :: p') [] 0 in
      match out with
      | [] => "."
      | _ => string_of_list_ascii (rev out)
      end
  end.

(** [strings.Join(elem, "/")]. *)
Fixpoint join_slash (elem : list string) : string :=
  match elem with
  | [] => ""
  | [e] => e
  | e :: rest => e +:+ "/" +:+ join_slash rest
  end.

(** [path.Join(elem...)]: empty elements are ignored, the others are
    joined with slashes and the result is cleaned; an all-empty argument
    list gives the empty string. *)
Definition Join (elem : list string) : string :=
  match filter (λ e, e ≠ "") elem with
  | [] => ""
  | es => Clean (join_slash es)
  end.
End path.

(** ** [github.com/dimfeld/httppath] *)

Module httppath.
Import path.

(** [w--; for w > 1 && buf[w] != '/' { w-- }] *)
Definition backtrack (buf : list ascii) : list ascii := path.backtrack 1 buf.

(** The main loop of [httppath.Clean]; [buf] has its last byte first and
    always starts with the leading slash, [trailing] records that a
    trailing slash has to be put back. *)
Fixpoint Clean_loop (p : list ascii) (buf : list ascii) (trailing : bool)
    {struct p} : list ascii * bool :=
  let element c p' :=
    let buf1 := if (1 <? length buf)%nat then slash :: buf else buf in
    (fix copy (q : list ascii) (o : list ascii) {struct q}
       : list ascii * bool :=
       match q with
       | [] => (o, trailing)
       | d :: q' =>
           if is_slash d then Clean_loop q' o trailing
           else copy q' (d :: o)
       end) p' (c :: buf1) in
  let dotdot_element p' :=
    if (1 <? length buf)%nat then Clean_loop p' (backtrack buf) trailing
    else Clean_loop p' buf trailing in
  match p with
  | [] => (buf, trailing)
  | c :: p' =>
      if is_slash c then Clean_loop p' buf trailing
      else if is_dot c then
        match p' with
        | [] => Clean_loop p' buf true
        | c1 :: p'' =>
            if is_slash c1 then Clean_loop p' buf trailing
            else if is_dot c1 then
              match p'' with
              | [] => dotdot_element p''
              | c2 :: _ =>
                  if is_slash c2 then dotdot_element p''
                  else element c p'
              end
            else element c p'
        end
      else element c p'
  end.

(** [httppath.Clean(p)]: the URL version of [path.Clean]; the result
    always starts with a slash and keeps a trailing slash. *)
Definition Clean (p : string) : string :=
  match list_ascii_of_string p with
  | [] => "/"
  | c :: p' =>
      let n := length (c :: p') in
      let trailing := (2 <? n)%nat && is_slash (default c (last (c :: p'))) in
      let '(buf, trailing) :=
        if is_slash c then Clean_loop p' [slash] trailing
        else Clean_loop (c :: p') [slash] trailing in
      let buf :=
        if trailing && (1 <? length buf)%nat then slash :: buf else buf in
      string_of_list_ascii (rev buf)
  end.
End httppath.


(** ** Go standard library: [fmt], [sort], [net/url] *)

Module fmt.
(** [fmt.Sprintf(format, vals...)] for formats whose only verb is [%s]:
    each verb is replaced by the next value; a verb without a value is
    printed as [%!s(MISSING)]. *)
Fixpoint Sprintf (format : string) (vals : list string) : string :=
  match format with
  | String "%" (String "s" rest) =>
      match vals with
      | v :: vals' => v +:+ Sprintf rest vals'
      | [] => "%!s(MISSING)" +:+ Sprintf rest []
      end
  | String c rest => String c (Sprintf rest vals)
  | EmptyString => ""
  end.
End fmt.

Module sort.
(** [sort.Strings(x)]: ascending byte-wise order. *)
Definition Strings (x : list string) : list string :=
  merge_sort String.le x.
End sort.

Module url.
(** [url.URL], with the field that the service expression reads. *)
Record URL := {
  Scheme : string;
}.

Definition is_letter (c : ascii) : bool :=
  let n := nat_of_ascii c in
  ((97 <=? n) && (n <=? 122) || (65 <=? n) && (n <=? 90))%nat.

Definition is_scheme_char (c : ascii) : bool :=
  let n := nat_of_ascii c in
  ((48 <=? n) && (n <=? 57) || (n =? 43) || (n =? 45) || (n =? 46))%nat.

(** [stringContainsCTLByte]: a byte below 0x20, or 0x7f. *)
Definition is_CTL (c : ascii) : bool :=
  let n := nat_of_ascii c in ((n <? 32) || (n =? 127))%nat.

(** [strings.ToLower] on ASCII letters. *)
Definition to_lower (c : ascii) : ascii :=
  let n := nat_of_ascii c in
  if ((65 <=? n) && (n <=? 90))%nat then ascii_of_nat (n + 32) else c.

(** [getScheme(rawURL)]: the scheme before the first colon, if what
    precedes the colon is a scheme; [scheme] holds [rawURL[:i]] with its
    last byte first.  A colon in first position is an error. *)
Fixpoint getScheme (rawURL : list ascii) (scheme : list ascii)
    : option (list ascii) :=
  match rawURL with
  | [] => Some []
  | c :: rest =>
      if is_letter c then getScheme rest (c :: scheme)
      else if is_scheme_char c then
        match scheme with
        | [] => Some []
        | _ => getScheme rest (c :: scheme)
        end
      else if Ascii.eqb c ":" then
        match scheme with
        | [] => None
        | _ => Some (rev scheme)
        end
      else Some []
  end.

(** [strings.Cut(rawURL, "#")]: what precedes the fragment. *)
Fixpoint cut_fragment (rawURL : list ascii) : list ascii :=
  match rawURL with
  | [] => []
  | c :: rest => if Ascii.eqb c "#" then [] else c :: cut_fragment rest
  end.

(** The first steps of [url.Parse], up to the scheme: a URL with a control
    character or with a colon in first position is rejected with a nil
    URL, otherwise the scheme is split off and lower-cased.  The later
    steps (authority, path, query), which reject further URLs, are left
    out; the properties below hold for any parser and use this one on
    concrete URLs only. *)
Definition ParseScheme (rawURL : string) : option URL * option string :=
  let raw := list_ascii_of_string rawURL in
  let raw := cut_fragment raw in
  if existsb is_CTL raw then
    (None, Some "net/url: invalid control character in URL")
  else
    match getScheme raw [] with
    | None => (None, Some "missing protocol scheme")
    | Some scheme =>
        (Some {| Scheme := string_of_list_ascii (to_lower <$> scheme) |},
         None)
    end.
End url.

(** ** Package [eval]: validation errors *)

Module eval.
(** Modelled from the spec: [eval.ValidationErrors], whose declaration is
    not part of the sources at hand, is the accumulator of the diagnostics
    of one validation; the model keeps the messages, in the order they were
    recorded. *)
Definition ValidationErrors := list string.

(** [new(eval.ValidationErrors)] *)
Definition new_ValidationErrors : ValidationErrors := [].

(** Modelled from the spec: [verr.Add(def, format, vals...)] records the
    message [fmt.Errorf(format, vals...)]. *)
Definition Add (verr : ValidationErrors) (format : string)
    (vals : list string) : ValidationErrors :=
  verr ++ [fmt.Sprintf format vals].

(** Modelled from the spec: [verr.Merge(err)] appends the diagnostics of
    [err] to [verr]. *)
Definition Merge (verr err : ValidationErrors) : ValidationErrors :=
  verr ++ err.
End eval.

(** ** Package [expr]: the HTTP service expression *)

Module expr.
Section HTTPService.
(** [MappedAttributeExpr] and [HTTPErrorExpr] are declared elsewhere in
    the package; the service only stores them and hands them to their
    own validation. *)
Context {MappedAttributeExpr HTTPErrorExpr : Type}.

Record ServerExpr := {
  (** URL of the host *)
  URL : string;
}.

Record ServiceExpr := {
  Name : string;
  Description : string;
  Servers : list ServerExpr;
}.

Record MethodExpr := {
  MethodExpr_Name : string;
}.

(** A route: a method and a path template. *)
Record RouteExpr := {
  Method : string;
  Path : string;
}.

Record HTTPEndpointExpr := {
  (** the embedded [*MethodExpr] *)
  HTTPEndpointExpr_MethodExpr : MethodExpr;
  Routes : list RouteExpr;
}.

Record HTTPServiceExpr := {
  (** the service expression that backs this service *)
  HTTPServiceExpr_ServiceExpr : ServiceExpr;
  (** common URL prefixes to all service endpoint HTTP requests *)
  Paths : list string;
  Params : option MappedAttributeExpr;
  Headers : option MappedAttributeExpr;
  (** name of parent service if any *)
  ParentName : string;
  (** endpoint with canonical service path *)
  CanonicalEndpointName : string;
  HTTPEndpoints : list HTTPEndpointExpr;
  HTTPErrors : list HTTPErrorExpr;
}.

Record HTTPExpr := {
  (** [Root.API.HTTP.Path], the API root path *)
  HTTPExpr_Path : string;
  Services : list HTTPServiceExpr;
  Errors : list HTTPErrorExpr;
}.

Record APIExpr := {
  APIExpr_Name : string;
  HTTP : HTTPExpr;
}.

Record RootExpr := {
  API : APIExpr;
}.

(** The package-level [Root], read by the methods below once the design
    has been evaluated. *)
Variable Root : RootExpr.

(** [RouteExpr.FullPaths], declared with the routes: the full paths
    of a route, computed from its service. *)
Variable RouteExpr_FullPaths : RouteExpr → list string.

(** [url.Parse]: a pointer to the parsed URL (nil when absent) and an
    error (nil when absent). *)
Variable url_Parse : string → option url.URL * option string.

(** [MappedAttributeExpr.Validate(ctx, parent)] *)
Variable MappedAttributeExpr_Validate :
  MappedAttributeExpr → string → HTTPServiceExpr → eval.ValidationErrors.

(** [HTTPErrorExpr.Validate()] *)
Variable HTTPErrorExpr_Validate : HTTPErrorExpr → eval.ValidationErrors.

(** [HTTPEndpointExpr.Name]: the name of the embedded method. *)
Definition HTTPEndpointExpr_Name (e : HTTPEndpointExpr) : string :=
  MethodExpr_Name (HTTPEndpointExpr_MethodExpr e).

(** Modelled from the spec: [HTTPExpr.Service(name)], missing from the
    sources at hand, is the by-name lookup of a declared service: the
    first service with that name, nil if there is none. *)
Definition Service (h : HTTPExpr) (name : string) : option HTTPServiceExpr :=
  snd <$> list_find (λ s, Name (HTTPServiceExpr_ServiceExpr s) = name) (Services h).

(** Name of service (service) *)
Definition HTTPServiceExpr_Name (svc : HTTPServiceExpr) : string :=
  Name (HTTPServiceExpr_ServiceExpr svc).

(** One iteration of the loop of [Schemes]: the scheme is recorded in the
    branch [err != nil], through the pointer [u]. *)
Definition Schemes_step (acc : outcome (gset string)) (s : ServerExpr)
    : outcome (gset string) :=
  match acc with
  | Panicked => Panicked
  | Returned schemes =>
      let '(u, err) := url_Parse (URL s) in
      match err with
      | Some _ =>
          match u with
          | Some u => Returned ({[ url.Scheme u ]} ∪ schemes)
          | None => Panicked
          end
      | None => Returned schemes
      end
  end.

(** Schemes returns the service endpoint HTTP schemes. *)
Definition Schemes (svc : HTTPServiceExpr) : outcome (list string) :=
  match foldl Schemes_step (Returned ∅)
          (Servers (HTTPServiceExpr_ServiceExpr svc)) with
  | Panicked => Panicked
  | Returned schemes =>
      if decide (size schemes = 0) then Returned []
      else Returned (sort.Strings (elements schemes))
  end.

(** Endpoint returns the service endpoint with the given name or nil if
    there isn't one. *)
Definition Endpoint (svc : HTTPServiceExpr) (name : string)
    : option HTTPEndpointExpr :=
  snd <$> list_find (λ a, HTTPEndpointExpr_Name a = name) (HTTPEndpoints svc).

(** CanonicalEndpoint returns the canonical endpoint of the service if
    any. *)
Definition CanonicalEndpoint (svc : HTTPServiceExpr)
    : option HTTPEndpointExpr :=
  let name := CanonicalEndpointName svc in
  let name := if decide (name = "") then "show" else name in
  Endpoint svc name.

(** URITemplate returns a URI template to this service; indexing an empty
    list of full paths panics. *)
Definition URITemplate (svc : HTTPServiceExpr) : outcome string :=
  match CanonicalEndpoint svc with
  | None => Returned ""
  | Some ca =>
      match Routes ca with
      | [] => Returned ""
      | r0 :: _ =>
          match RouteExpr_FullPaths r0 with
          | p :: _ => Returned p
          | [] => Panicked
          end
      end
  end.

(** Parent returns the parent service if any, nil otherwise. *)
Definition Parent (svc : HTTPServiceExpr) : option HTTPServiceExpr :=
  if decide (ParentName svc ≠ "") then
    match Service (HTTP (API Root)) (ParentName svc) with
    | Some parent => Some parent
    | None => None
    end
  else None.

(** The base paths a fragment of [svc] is joined onto. *)
Definition basePaths (svc : HTTPServiceExpr) : list string :=
  match Parent svc with
  | Some p =>
      match CanonicalEndpoint p with
      | Some ca =>
          match Routes ca with
          | r0 :: _ => (λ p, path.Join [p]) <$> RouteExpr_FullPaths r0
          | [] => []
          end
      | None => []
      end
  | None => [HTTPExpr_Path (HTTP (API Root))]
  end.

(** The body of the loop of [FullPaths] over the declared fragments. *)
Definition FullPaths_step (svc : HTTPServiceExpr) (paths : list string)
    (p : string) : list string :=
  if strings.HasPrefix p "//" then paths ++ [httppath.Clean p]
  else
    foldl (λ paths base, paths ++ [httppath.Clean (path.Join [base; p])])
      paths (basePaths svc).

(** The paths one declared fragment stands for: the cleaned fragment for
    an absolute override, otherwise one joined path per base path, in the
    order of the base paths. *)
Definition fragment_paths (svc : HTTPServiceExpr) (p : string)
    : list string :=
  if strings.HasPrefix p "//" then [httppath.Clean p]
  else (λ base, httppath.Clean (path.Join [base; p])) <$> basePaths svc.

(** FullPaths computes the base paths to the service endpoints
    concatenating the API and parent service base paths as needed. *)
Definition FullPaths (svc : HTTPServiceExpr) : list string :=
  if decide (length (Paths svc) = 0) then
    [path.Join [HTTPExpr_Path (HTTP (API Root))]]
  else foldl (FullPaths_step svc) [] (Paths svc).

(** Validate makes sure the service is valid. *)
Definition Validate (svc : HTTPServiceExpr) : eval.ValidationErrors :=
  let verr := eval.new_ValidationErrors in
  let verr :=
    match Params svc with
    | Some ps =>
        eval.Merge verr (MappedAttributeExpr_Validate ps "parameters" svc)
    | None => verr
    end in
  let verr :=
    match Headers svc with
    | Some hs =>
        eval.Merge verr (MappedAttributeExpr_Validate hs "headers" svc)
    | None => verr
    end in
  let verr :=
    let n := ParentName svc in
    if decide (n ≠ "") then
      match Service (HTTP (API Root)) n with
      | None => eval.Add verr "Parent service %s not found" [n]
      | Some p =>
          let verr :=
            match CanonicalEndpoint p with
            | None =>
                eval.Add verr "Parent service %s has no canonical endpoint" [n]
            | Some _ => verr
            end in
          if decide (ParentName p = HTTPServiceExpr_Name svc)
          then eval.Add verr "Parent service %s is also child" [n]
          else verr
      end
    else verr in
  let verr :=
    let n := CanonicalEndpointName svc in
    if decide (n ≠ "") then
      match Endpoint svc n with
      | None => eval.Add verr "Unknown canonical endpoint %s" [n]
      | Some _ => verr
      end
    else verr in
  let verr :=
    foldl (λ verr er, eval.Merge verr (HTTPErrorExpr_Validate er))
      verr (HTTPErrors svc) in
  let verr :=
    foldl (λ verr er, eval.Merge verr (HTTPErrorExpr_Validate er))
      verr (Errors (HTTP (API Root))) in
  verr.

(** Description of service (service) *)
Definition HTTPServiceExpr_Description (svc : HTTPServiceExpr) : string :=
  Description (HTTPServiceExpr_ServiceExpr svc).

(** The field [Name] of [HTTPErrorExpr]. *)
Variable HTTPErrorExpr_Name : HTTPErrorExpr → string.

(** HTTPError returns the service HTTP error with given name if any. *)
Definition HTTPError (svc : HTTPServiceExpr) (name : string)
    : option HTTPErrorExpr :=
  snd <$> list_find (λ erro, HTTPErrorExpr_Name erro = name) (HTTPErrors svc).

(** [svc.HTTPEndpoints = append(svc.HTTPEndpoints, a)] *)
Definition append_HTTPEndpoint (a : HTTPEndpointExpr) (svc : HTTPServiceExpr)
    : HTTPServiceExpr :=
  {| HTTPServiceExpr_ServiceExpr := HTTPServiceExpr_ServiceExpr svc;
     Paths := Paths svc; Params := Params svc; Headers := Headers svc;
     ParentName := ParentName svc;
     CanonicalEndpointName := CanonicalEndpointName svc;
     HTTPEndpoints := HTTPEndpoints svc ++ [a];
     HTTPErrors := HTTPErrors svc |}.

(** EndpointFor builds the endpoint for the given method: the endpoint
    returned and the service as the call leaves it.  The new endpoint has
    the method [m] and no route yet. *)
Definition EndpointFor (svc : HTTPServiceExpr) (name : string)
    (m : MethodExpr) : HTTPEndpointExpr * HTTPServiceExpr :=
  match Endpoint svc name with
  | Some a => (a, svc)
  | None =>
      let a := {| HTTPEndpointExpr_MethodExpr := m; Routes := [] |} in
      (a, append_HTTPEndpoint a svc)
  end.
End HTTPService.

Arguments ServerExpr : clear implicits.
Arguments ServiceExpr : clear implicits.
Arguments HTTPServiceExpr : clear implicits.
Arguments HTTPExpr : clear implicits.
Arguments APIExpr : clear implicits.
Arguments RootExpr : clear implicits.
End expr.

(** ** Package [dsl]: the API DSL, run by the [eval] engine

    While a design is evaluated the expressions are built in place, through
    pointers: the nodes live in a store, and the evaluation context holds the
    stack of the nodes being defined. *)

Module dsl.
(** A pointer to an expression. *)
Definition loc := positive.

(** [eval.Expression] values as [eval.Current] returns them: the top-level
    marker [eval.Top] or a pointer to the expression being defined. *)
Inductive Expression :=
  | Top
  | Ref (e : loc).

Section DSL.
(** Go closures of type [func()], run by [call]. *)
Context {DSLFunc : Type}.

Record APIExpr := {
  API_DSLFunc : option DSLFunc;
  API_Name : string;
  API_Title : string;
  API_Version : string;
  API_TermsOfService : string;
  API_Contact : option loc;
  API_License : option loc;
  API_Docs : option loc;
  API_Servers : list loc;
}.

Record ServiceExpr := {
  Service_Name : string;
  Service_Docs : option loc;
  Service_Servers : list loc;
}.

Record ServerExpr := { Server_URL : string }.
Record ContactExpr := {
  Contact_Name : string;
  Contact_Email : string;
  Contact_URL : string;
}.
Record LicenseExpr := { License_Name : string; License_URL : string }.
Record DocsExpr := { Docs_Description : string; Docs_URL : string }.

(** The dynamic type of an expression and its fields; of methods,
    attributes and file servers only the documentation is kept. *)
Inductive Node :=
  | NAPI (a : APIExpr)
  | NService (s : ServiceExpr)
  | NServer (s : ServerExpr)
  | NContact (c : ContactExpr)
  | NLicense (l : LicenseExpr)
  | NDocs (d : DocsExpr)
  | NMethod (docs : option loc)
  | NAttribute (docs : option loc)
  | NHTTPFileServer (docs : option loc).

(** Memory, [eval.Context] (stack and recorded errors) and
    [expr.Root.API]. *)
Record World := {
  Heap : gmap loc Node;
  Stack : list loc;
  Errors : list string;
  Root_API : option loc;
}.

Variable call : DSLFunc → World → World.

Definition set_Heap (h : gmap loc Node) (w : World) : World :=
  {| Heap := h; Stack := Stack w; Errors := Errors w; Root_API := Root_API w |}.
Definition set_Stack (st : list loc) (w : World) : World :=
  {| Heap := Heap w; Stack := st; Errors := Errors w; Root_API := Root_API w |}.
Definition set_Errors (es : list string) (w : World) : World :=
  {| Heap := Heap w; Stack := Stack w; Errors := es; Root_API := Root_API w |}.
Definition set_Root_API (a : option loc) (w : World) : World :=
  {| Heap := Heap w; Stack := Stack w; Errors := Errors w; Root_API := a |}.

(** [new(T)] and [&T{...}]: a pointer that is not in use yet. *)
Definition alloc (n : Node) (w : World) : loc * World :=
  let l := fresh (dom (Heap w)) in
  (l, set_Heap (<[l := n]> (Heap w)) w).

(** [*e = n] *)
Definition store (e : loc) (n : Node) (w : World) : World :=
  set_Heap (<[e := n]> (Heap w)) w.

(** Modelled from the spec: [eval.Current], of the missing package
    [eval], returns whatever node is the active construction target: the
    top of the stack, or the top-level marker when nothing is being
    defined. *)
Definition Current (w : World) : Expression :=
  match last (Stack w) with
  | Some e => Ref e
  | None => Top
  end.

(** Modelled from the spec: [eval.ReportError], of the missing package
    [eval], records a diagnostic at the call site. *)
Definition ReportError (msg : string) (w : World) : World :=
  set_Errors (Errors w ++ [msg]) w.

(** The Go name of the dynamic type of the current expression. *)
Definition TypeName (w : World) : string :=
  match Current w with
  | Top => "eval.TopExpr"
  | Ref e =>
      match Heap w !! e with
      | Some (NAPI _) => "*expr.APIExpr"
      | Some (NService _) => "*expr.ServiceExpr"
      | Some (NServer _) => "*expr.ServerExpr"
      | Some (NContact _) => "*expr.ContactExpr"
      | Some (NLicense _) => "*expr.LicenseExpr"
      | Some (NDocs _) => "*expr.DocsExpr"
      | Some (NMethod _) => "*expr.MethodExpr"
      | Some (NAttribute _) => "*expr.AttributeExpr"
      | Some (NHTTPFileServer _) => "*expr.HTTPFileServerExpr"
      | None => "nil"
      end
  end.

(** Modelled from the spec: [eval.IncompatibleDSL], of the missing
    package [eval], records the incompatible DSL diagnostic, which names
    the call and the actual current type. *)
Definition IncompatibleDSL (caller : string) (w : World) : World :=
  ReportError
    (fmt.Sprintf "invalid use of %s in %s" [caller; TypeName w]) w.

(** Modelled from the spec: [eval.Execute(fn, def)], of the missing
    package [eval], pushes [def] as current, invokes the closure, pops
    the context, and reports whether no diagnostic was raised during the
    call; a nil closure is not run. *)
Definition Execute (fn : option DSLFunc) (def : loc) (w : World)
    : bool * World :=
  match fn with
  | None => (true, w)
  | Some f =>
      let startCount := length (Errors w) in
      let w := set_Stack (Stack w ++ [def]) w in
      let w := call f w in
      let w := set_Stack (take (length (Stack w) - 1) (Stack w)) w in
      let endCount := length (Errors w) in
      (bool_decide (endCount ≤ startCount)%nat, w)
  end.

(** Modelled from the spec: [expr.NewAPIExpr(name, fn)], missing from the
    sources at hand, creates the API expression with the given name and
    defining DSL. *)
Definition NewAPIExpr (name : string) (fn : option DSLFunc) (w : World)
    : loc * World :=
  alloc (NAPI {| API_DSLFunc := fn; API_Name := name; API_Title := "";
                 API_Version := ""; API_TermsOfService := "";
                 API_Contact := None; API_License := None;
                 API_Docs := None; API_Servers := [] |}) w.

(** API defines a network service API. *)
Definition API (name : string) (fn : option DSLFunc) (w : World)
    : option loc * World :=
  if decide (name = "") then
    (None, ReportError "API first argument cannot be empty" w)
  else
    match Current w with
    | Top =>
        let '(a, w) := NewAPIExpr name fn w in
        (Some a, set_Root_API (Some a) w)
    | Ref _ => (None, IncompatibleDSL "API" w)
    end.

(** Title sets the API title used by the generated documentation and
    code comments. *)
Definition Title (val : string) (w : World) : World :=
  match Current w with
  | Ref e =>
      match Heap w !! e with
      | Some (NAPI s) =>
          store e (NAPI {| API_DSLFunc := API_DSLFunc s;
             API_Name := API_Name s; API_Title := val;
             API_Version := API_Version s;
             API_TermsOfService := API_TermsOfService s;
             API_Contact := API_Contact s; API_License := API_License s;
             API_Docs := API_Docs s; API_Servers := API_Servers s |}) w
      | _ => IncompatibleDSL "Title" w
      end
  | Top => IncompatibleDSL "Title" w
  end.

(** [e.Servers = append(e.Servers, server)] on an API expression. *)
Definition API_append_Server (server : loc) (e : APIExpr) : APIExpr :=
  {| API_DSLFunc := API_DSLFunc e; API_Name := API_Name e;
     API_Title := API_Title e; API_Version := API_Version e;
     API_TermsOfService := API_TermsOfService e;
     API_Contact := API_Contact e; API_License := API_License e;
     API_Docs := API_Docs e; API_Servers := API_Servers e ++ [server] |}.

(** [e.Servers = append(e.Servers, server)] on a service expression. *)
Definition Service_append_Server (server : loc) (e : ServiceExpr)
    : ServiceExpr :=
  {| Service_Name := Service_Name e; Service_Docs := Service_Docs e;
     Service_Servers := Service_Servers e ++ [server] |}.

(** Server defines an API host. *)
Definition Server (url : string) (fn : list (option DSLFunc)) (w : World)
    : World :=
  let w :=
    if decide (1 < length fn)%nat then
      ReportError "too many arguments given to Server" w
    else w in
  let '(server, w) := alloc (NServer {| Server_URL := url |}) w in
  let w :=
    match fn with
    | fn0 :: _ => snd (Execute fn0 server w)
    | [] => w
    end in
  let w :=
    if decide (url = "") then ReportError "Server URL cannot be empty" w
    else w in
  match Current w with
  | Ref e =>
      match Heap w !! e with
      | Some (NAPI e') => store e (NAPI (API_append_Server server e')) w
      | Some (NService e') =>
          store e (NService (Service_append_Server server e')) w
      | _ => IncompatibleDSL "Server" w
      end
  | Top => IncompatibleDSL "Server" w
  end.

(** The server list of an API or service expression. *)
Definition Servers (n : Node) : option (list loc) :=
  match n with
  | NAPI e => Some (API_Servers e)
  | NService e => Some (Service_Servers e)
  | _ => None
  end.

(** A closure follows the evaluation protocol when it leaves the stack
    as it found it, frees nothing, and writes to no existing node other
    than the one being defined. *)
Definition scoped (f : DSLFunc) : Prop :=
  ∀ w,
    Stack (call f w) = Stack w ∧
    dom (Heap w) ⊆ dom (Heap (call f w)) ∧
    ∀ l, is_Some (Heap w !! l) → last (Stack w) ≠ Some l →
         Heap (call f w) !! l = Heap w !! l.

(** [s.Version = ver] and the like: an API expression with one field
    replaced. *)
Definition API_with_Version (ver : string) (s : APIExpr) : APIExpr :=
  {| API_DSLFunc := API_DSLFunc s; API_Name := API_Name s;
     API_Title := API_Title s; API_Version := ver;
     API_TermsOfService := API_TermsOfService s;
     API_Contact := API_Contact s; API_License := API_License s;
     API_Docs := API_Docs s; API_Servers := API_Servers s |}.

Definition API_with_TermsOfService (terms : string) (s : APIExpr) : APIExpr :=
  {| API_DSLFunc := API_DSLFunc s; API_Name := API_Name s;
     API_Title := API_Title s; API_Version := API_Version s;
     API_TermsOfService := terms;
     API_Contact := API_Contact s; API_License := API_License s;
     API_Docs := API_Docs s; API_Servers := API_Servers s |}.

Definition API_with_Contact (contact : loc) (a : APIExpr) : APIExpr :=
  {| API_DSLFunc := API_DSLFunc a; API_Name := API_Name a;
     API_Title := API_Title a; API_Version := API_Version a;
     API_TermsOfService := API_TermsOfService a;
     API_Contact := Some contact; API_License := API_License a;
     API_Docs := API_Docs a; API_Servers := API_Servers a |}.

Definition API_with_License (license : loc) (a : APIExpr) : APIExpr :=
  {| API_DSLFunc := API_DSLFunc a; API_Name := API_Name a;
     API_Title := API_Title a; API_Version := API_Version a;
     API_TermsOfService := API_TermsOfService a;
     API_Contact := API_Contact a; API_License := Some license;
     API_Docs := API_Docs a; API_Servers := API_Servers a |}.

Definition API_with_Docs (docs : loc) (e : APIExpr) : APIExpr :=
  {| API_DSLFunc := API_DSLFunc e; API_Name := API_Name e;
     API_Title := API_Title e; API_Version := API_Version e;
     API_TermsOfService := API_TermsOfService e;
     API_Contact := API_Contact e; API_License := API_License e;
     API_Docs := Some docs; API_Servers := API_Servers e |}.

Definition Service_with_Docs (docs : loc) (e : ServiceExpr) : ServiceExpr :=
  {| Service_Name := Service_Name e; Service_Docs := Some docs;
     Service_Servers := Service_Servers e |}.

(** Version specifies the API version. One design describes one version. *)
Definition Version (ver : string) (w : World) : World :=
  match Current w with
  | Ref e =>
      match Heap w !! e with
      | Some (NAPI s) => store e (NAPI (API_with_Version ver s)) w
      | _ => IncompatibleDSL "Version" w
      end
  | Top => IncompatibleDSL "Version" w
  end.

(** TermsOfService describes the API terms of services or links to them. *)
Definition TermsOfService (terms : string) (w : World) : World :=
  match Current w with
  | Ref e =>
      match Heap w !! e with
      | Some (NAPI s) => store e (NAPI (API_with_TermsOfService terms s)) w
      | _ => IncompatibleDSL "TermsOfService" w
      end
  | Top => IncompatibleDSL "TermsOfService" w
  end.

(** Contact sets the API contact information. *)
Definition Contact (fn : option DSLFunc) (w : World) : World :=
  let '(contact, w) :=
    alloc (NContact {| Contact_Name := ""; Contact_Email := "";
                       Contact_URL := "" |}) w in
  let '(ok, w) := Execute fn contact w in
  if negb ok then w
  else
    match Current w with
    | Ref e =>
        match Heap w !! e with
        | Some (NAPI a) => store e (NAPI (API_with_Contact contact a)) w
        | _ => IncompatibleDSL "Contact" w
        end
    | Top => IncompatibleDSL "Contact" w
    end.

(** License sets the API license information. *)
Definition License (fn : option DSLFunc) (w : World) : World :=
  let '(license, w) :=
    alloc (NLicense {| License_Name := ""; License_URL := "" |}) w in
  let '(ok, w) := Execute fn license w in
  if negb ok then w
  else
    match Current w with
    | Ref e =>
        match Heap w !! e with
        | Some (NAPI a) => store e (NAPI (API_with_License license a)) w
        | _ => IncompatibleDSL "License" w
        end
    | Top => IncompatibleDSL "License" w
    end.

(** Docs provides external documentation URLs. *)
Definition Docs (fn : option DSLFunc) (w : World) : World :=
  let '(docs, w) :=
    alloc (NDocs {| Docs_Description := ""; Docs_URL := "" |}) w in
  let '(ok, w) := Execute fn docs w in
  if negb ok then w
  else
    match Current w with
    | Ref e =>
        match Heap w !! e with
        | Some (NAPI e') => store e (NAPI (API_with_Docs docs e')) w
        | Some (NService e') => store e (NService (Service_with_Docs docs e')) w
        | Some (NMethod _) => store e (NMethod (Some docs)) w
        | Some (NAttribute _) => store e (NAttribute (Some docs)) w
        | Some (NHTTPFileServer _) => store e (NHTTPFileServer (Some docs)) w
        | _ => IncompatibleDSL "Docs" w
        end
    | Top => IncompatibleDSL "Docs" w
    end.

(** Name sets the contact or license name. *)
Definition Name (name : string) (w : World) : World :=
  match Current w with
  | Ref e =>
      match Heap w !! e with
      | Some (NContact def) =>
          store e (NContact {| Contact_Name := name;
                               Contact_Email := Contact_Email def;
                               Contact_URL := Contact_URL def |}) w
      | Some (NLicense def) =>
          store e (NLicense {| License_Name := name;
                               License_URL := License_URL def |}) w
      | _ => IncompatibleDSL "Name" w
      end
  | Top => IncompatibleDSL "Name" w
  end.

(** Email sets the contact email. *)
Definition Email (email : string) (w : World) : World :=
  match Current w with
  | Ref e =>
      match Heap w !! e with
      | Some (NContact c) =>
          store e (NContact {| Contact_Name := Contact_Name c;
                               Contact_Email := email;
                               Contact_URL := Contact_URL c |}) w
      | _ => w
      end
  | Top => w
  end.

(** URL sets the contact, license or external documentation URL. *)
Definition URL (url : string) (w : World) : World :=
  match Current w with
  | Ref e =>
      match Heap w !! e with
      | Some (NContact def) =>
          store e (NContact {| Contact_Name := Contact_Name def;
                               Contact_Email := Contact_Email def;
                               Contact_URL := url |}) w
      | Some (NLicense def) =>
          store e (NLicense {| License_Name := License_Name def;
                               License_URL := url |}) w
      | Some (NDocs def) =>
          store e (NDocs {| Docs_Description := Docs_Description def;
                            Docs_URL := url |}) w
      | _ => IncompatibleDSL "URL" w
      end
  | Top => IncompatibleDSL "URL" w
  end.

(** The node being defined, if any: what the type switches on
    [eval.Current()] look at. *)
Definition Current_Node (w : World) : option Node :=
  match Current w with
  | Ref e => Heap w !! e
  | Top => None
  end.

(** A step of the evaluation follows the protocol when it leaves the stack
    as it found it, frees nothing, and writes to no existing node other
    than the one being defined. *)
Definition follows_protocol (g : World → World) : Prop :=
  ∀ w,
    Stack (g w) = Stack w ∧
    dom (Heap w) ⊆ dom (Heap (g w)) ∧
    ∀ l, is_Some (Heap w !! l) → last (Stack w) ≠ Some l →
         Heap (g w) !! l = Heap w !! l.

(** A call is rejected when all it does is record one diagnostic. *)
Definition rejected (w w' : World) : Prop :=
  Heap w' = Heap w ∧ Stack w' = Stack w ∧ Root_API w' = Root_API w ∧
  ∃ msg, Errors w' = Errors w ++ [msg].

(** [w'] extends [w] when it has the same stack and holds every node of
    [w] as it is in [w]. *)
Definition extends (w w' : World) : Prop :=
  Stack w' = Stack w ∧
  ∀ l, is_Some (Heap w !! l) → Heap w' !! l = Heap w !! l.

(** The world before any declaration has run. *)
Definition empty_World : World :=
  {| Heap := ∅; Stack := []; Errors := []; Root_API := None |}.
End DSL.

Arguments APIExpr : clear implicits.
Arguments Node : clear implicits.
Arguments World : clear implicits.
End dsl.

(** ** Sample designs *)

Module sample.
Import expr.

(** Attributes and errors that carry the diagnostics their validation
    gives. *)
Definition Attr := eval.ValidationErrors.
Definition Err := eval.ValidationErrors.

Definition Attr_Validate (a : Attr) (ctx : string)
    (svc : HTTPServiceExpr Attr Err) : eval.ValidationErrors := a.
Definition Err_Validate (e : Err) : eval.ValidationErrors := e.

(** Routes whose full paths are their own cleaned path. *)
Definition Route_FullPaths (r : RouteExpr) : list string :=
  [httppath.Clean (Path r)].

Definition service (name : string) (urls : list string) : ServiceExpr :=
  {| Name := name; Description := "";
     Servers := (λ u, {| URL := u |}) <$> urls |}.

Definition endpoint (name : string) (routes : list string)
    : HTTPEndpointExpr :=
  {| HTTPEndpointExpr_MethodExpr := {| MethodExpr_Name := name |};
     Routes := (λ p, {| Method := "GET"; Path := p |}) <$> routes |}.

Definition http_service (name : string) (urls paths : list string)
    (parent canonical : string) (endpoints : list HTTPEndpointExpr)
    : HTTPServiceExpr Attr Err :=
  {| HTTPServiceExpr_ServiceExpr := service name urls;
     Paths := paths; Params := None; Headers := None;
     ParentName := parent; CanonicalEndpointName := canonical;
     HTTPEndpoints := endpoints; HTTPErrors := [] |}.

Definition root (rootPath : string) (svcs : list (HTTPServiceExpr Attr Err))
    : RootExpr Attr Err :=
  {| API := {| APIExpr_Name := "api";
               HTTP := {| HTTPExpr_Path := rootPath; Services := svcs;
                          Errors := [] |} |} |}.

(** A parent whose canonical endpoint has the route [/a], and a child
    declaring the fragment [/b/{id}]. *)
Definition parent := http_service "parent" [] [] "" "" [endpoint "show" ["/a"]].
Definition child := http_service "child" [] ["/b/{id}"] "parent" "" [].

(** A parent without endpoints, one whose canonical endpoint has no
    route, and their children. *)
Definition bare := http_service "bare" [] [] "" "" [].
Definition orphan := http_service "orphan" [] ["/b"] "bare" "" [].
Definition routeless := http_service "routeless" [] [] "" "" [endpoint "show" []].
Definition stray := http_service "stray" [] ["/b"] "routeless" "" [].

(** Two services that name each other as parent. *)
Definition ping := http_service "ping" [] [] "pong" "" [endpoint "show" ["/ping"]].
Definition pong := http_service "pong" [] [] "ping" "" [].

Definition design : RootExpr Attr Err :=
  root "/" [parent; child; bare; orphan; routeless; stray; ping; pong].

(** The same services under the root path [/api/]. *)
Definition prefixed : RootExpr Attr Err := root "/api/" [parent; child; bare].

(** A service with two servers, and one whose server URL does not parse. *)
Definition web :=
  http_service "web" ["https://example.com"; "http://example.com:8080/v1"]
    [] "" "" [].
Definition broken := http_service "broken" [":8080"] [] "" "" [].

(** Closures that set a title: the closure [t] stands for
    [func() { Title(t) }]. *)
Definition TitleFunc := string.

(** Two API declarations in a row, at top level. *)
Definition first_API : option dsl.loc * dsl.World TitleFunc :=
  dsl.API "adder" None dsl.empty_World.

(** The world while the body of the first API declaration runs: the API
    expression is the current one. *)
Definition API_body : dsl.World TitleFunc :=
  dsl.set_Stack (option_list first_API.1) first_API.2.

(** Closures that call setters in sequence: the closure
    [[CName n; CEmail e; CURL u]] stands for
    [func() { Name(n); Email(e); URL(u) }]. *)
Inductive Call :=
  | CTitle (val : string)
  | CVersion (ver : string)
  | CTermsOfService (terms : string)
  | CName (name : string)
  | CEmail (email : string)
  | CURL (url : string).

Definition Script := list Call.

Definition run_Call (c : Call) (w : dsl.World Script) : dsl.World Script :=
  match c with
  | CTitle val => dsl.Title val w
  | CVersion ver => dsl.Version ver w
  | CTermsOfService terms => dsl.TermsOfService terms w
  | CName name => dsl.Name name w
  | CEmail email => dsl.Email email w
  | CURL url => dsl.URL url w
  end.

Definition run (f : Script) (w : dsl.World Script) : dsl.World Script :=
  foldl (λ w c, run_Call c w) w f.

(** The world while the body of an API declaration runs, for scripts. *)
Definition Script_API_body : dsl.World Script :=
  let r := dsl.API "adder" None dsl.empty_World in
  dsl.set_Stack (option_list r.1) r.2.

(** Three services that name each other as parent in a ring, each with a
    canonical endpoint and a route. *)
Definition ring_a :=
  http_service "ring_a" [] ["/a"] "ring_b" "" [endpoint "show" ["/a"]].
Definition ring_b :=
  http_service "ring_b" [] ["/b"] "ring_c" "" [endpoint "show" ["/b"]].
Definition ring_c :=
  http_service "ring_c" [] ["/c"] "ring_a" "" [endpoint "show" ["/c"]].
Definition ring : RootExpr Attr Err := root "/" [ring_a; ring_b; ring_c].

(** A service with a canonical endpoint and a route, under a parent whose
    canonical endpoint has no route; and routes of a given service whose
    full paths are those of the service, each joined with the path of the
    route. *)
Definition stray_show :=
  http_service "stray_show" [] ["/b"] "routeless" "" [endpoint "show" ["/x"]].
Definition unrouted : RootExpr Attr Err := root "/" [routeless; stray_show].
Definition Owner_FullPaths (svc : HTTPServiceExpr Attr Err) (r : RouteExpr)
    : list string :=
  (λ base, httppath.Clean (path.Join [base; Path r]))
    <$> FullPaths unrouted Route_FullPaths svc.
End sample.

Example path_Clean_ex1 : path.Clean "/a//b/{id}" = "/a/b/{id}". Proof. reflexivity. Qed.
Example path_Clean_ex2 : path.Clean "a/../.." = "..". Proof. reflexivity. Qed.
Example path_Clean_ex3 : path.Clean "/../a/./b/" = "/a/b". Proof. reflexivity. Qed.
Example path_Clean_ex4 : path.Clean "abc/def/../ghi/.." = "abc". Proof. reflexivity. Qed.
Example path_Clean_ex5 : path.Clean "" = ".". Proof. reflexivity. Qed.
Example path_Clean_ex6 : path.Clean "a/.." = ".". Proof. reflexivity. Qed.
Example path_Clean_ex7 : path.Clean "../../a/b/../c" = "../../a/c". Proof. reflexivity. Qed.
Example path_Clean_ex8 : path.Clean "/api/" = "/api". Proof. reflexivity. Qed.
Example path_Clean_ex9 : path.Clean "/..a/.b/c.." = "/..a/.b/c..". Proof. reflexivity. Qed.
Example path_Join_ex1 : path.Join ["/a"; "/b/{id}"] = "/a/b/{id}". Proof. reflexivity. Qed.
Example path_Join_ex2 : path.Join [""; ""] = "". Proof. reflexivity. Qed.
Example path_Join_ex3 : path.Join [""; "a"] = "a". Proof. reflexivity. Qed.
Example path_Join_ex4 : path.Join ["/"] = "/". Proof. reflexivity. Qed.
Example httppath_ex1 : httppath.Clean "//x" = "/x". Proof. reflexivity. Qed.
Example httppath_ex2 : httppath.Clean "/a/b/{id}" = "/a/b/{id}". Proof. reflexivity. Qed.
Example httppath_ex3 : httppath.Clean "a/b/../c/" = "/a/c/". Proof. reflexivity. Qed.
Example httppath_ex4 : httppath.Clean "" = "/". Proof. reflexivity. Qed.
Example httppath_ex5 : httppath.Clean "/abc/." = "/abc/". Proof. reflexivity. Qed.
Example httppath_ex6 : httppath.Clean "/../.." = "/". Proof. reflexivity. Qed.

(** ** Properties of the path resolver *)

Import expr.

(** Appending in a loop builds the concatenation of what each iteration
    appends. *)
Lemma foldl_snoc_bind {A B : Type} (f : A → list B) (l : list A) (acc : list B) :
  foldl (λ acc x, acc ++ f x) acc l = acc ++ (l ≫= f).
Proof.
  revert acc. induction l as [|x l IH]; intros acc; simpl.
  - by rewrite app_nil_r.
  - by rewrite IH, app_assoc.
Qed.

Lemma foldl_snoc_fmap {A B : Type} (g : A → B) (l : list A) (acc : list B) :
  foldl (λ acc x, acc ++ [g x]) acc l = acc ++ (g <$> l).
Proof.
  revert acc. induction l as [|x l IH]; intros acc; simpl.
  - by rewrite app_nil_r.
  - by rewrite IH, <- app_assoc.
Qed.

Lemma bind_nonempty {A B : Type} (f : A → list B) (l : list A) :
  l ≠ [] → (∀ x, x ∈ l → f x ≠ []) → l ≫= f ≠ [].
Proof.
  destruct l as [|x l]; [done|]. intros _ Hf. simpl.
  specialize (Hf x (list_elem_of_here x l)).
  destruct (f x); [done|]. discriminate.
Qed.

(** [path.Join] of one element cleans it, and leaves it empty when it is
    empty. *)
Lemma Join_single (p : string) :
  path.Join [p] = if decide (p = "") then "" else path.Clean p.
Proof.
  unfold path.Join. rewrite filter_cons, filter_nil.
  destruct (decide (p ≠ "")) as [Hne|He], (decide (p = "")) as [Hq|Hq];
    done.
Qed.

Section path_resolver.
Context {MappedAttributeExpr HTTPErrorExpr : Type}.
Variable Root : RootExpr MappedAttributeExpr HTTPErrorExpr.
Variable RouteExpr_FullPaths : RouteExpr → list string.
Implicit Types svc : HTTPServiceExpr MappedAttributeExpr HTTPErrorExpr.

Local Abbreviation FullPaths := (FullPaths Root RouteExpr_FullPaths).
Local Abbreviation fragment_paths := (fragment_paths Root RouteExpr_FullPaths).
Local Abbreviation basePaths := (basePaths Root RouteExpr_FullPaths).
Local Abbreviation rootPath := (HTTPExpr_Path (HTTP (API Root))).

Lemma FullPaths_step_app svc (paths : list string) (p : string) :
  FullPaths_step Root RouteExpr_FullPaths svc paths p
  = paths ++ fragment_paths svc p.
Proof.
  unfold FullPaths_step, expr.fragment_paths.
  destruct (strings.HasPrefix p "//"); [done|].
  apply foldl_snoc_fmap.
Qed.

Lemma FullPaths_loop svc (ps paths : list string) :
  foldl (FullPaths_step Root RouteExpr_FullPaths svc) paths ps
  = paths ++ (ps ≫= fragment_paths svc).
Proof.
  revert paths. induction ps as [|p ps IH]; intros paths; simpl.
  - by rewrite app_nil_r.
  - by rewrite IH, FullPaths_step_app, app_assoc.
Qed.

(** The loop over the declared fragments concatenates, in order, the
    paths of each fragment. *)
Lemma FullPaths_fragments svc :
  Paths svc ≠ [] → FullPaths svc = Paths svc ≫= fragment_paths svc.
Proof.
  intros Hne. unfold expr.FullPaths.
  destruct (decide (length (Paths svc) = 0)) as [Hlen|_].
  { by apply length_zero_iff_nil in Hlen. }
  by rewrite FullPaths_loop.
Qed.

Lemma FullPaths_no_fragment svc :
  Paths svc = [] → FullPaths svc = [path.Join [rootPath]].
Proof. intros Hnil. unfold expr.FullPaths. by rewrite Hnil. Qed.

Lemma basePaths_parent svc par ca r rs :
  Parent Root svc = Some par → CanonicalEndpoint par = Some ca →
  Routes ca = r :: rs →
  basePaths svc = (λ p, path.Join [p]) <$> RouteExpr_FullPaths r.
Proof. intros Hp Hca Hr. unfold expr.basePaths. by rewrite Hp, Hca, Hr. Qed.

Lemma basePaths_no_parent svc :
  Parent Root svc = None → basePaths svc = [rootPath].
Proof. intros Hp. unfold expr.basePaths. by rewrite Hp. Qed.
End path_resolver.


Section path_resolver_fragments.
Context {MappedAttributeExpr HTTPErrorExpr : Type}.
Variable Root : RootExpr MappedAttributeExpr HTTPErrorExpr.
Variable RouteExpr_FullPaths : RouteExpr → list string.
Implicit Types svc : HTTPServiceExpr MappedAttributeExpr HTTPErrorExpr.

Local Abbreviation FullPaths := (FullPaths Root RouteExpr_FullPaths).
Local Abbreviation fragment_paths := (fragment_paths Root RouteExpr_FullPaths).
Local Abbreviation basePaths := (basePaths Root RouteExpr_FullPaths).

(** The paths of a fragment sit in the result at the place of the fragment
    in the declaration. *)
Lemma FullPaths_at svc (pre post : list string) (p : string) :
  Paths svc = pre ++ p :: post →
  FullPaths svc
  = (pre ≫= fragment_paths svc) ++ fragment_paths svc p
      ++ (post ≫= fragment_paths svc).
Proof.
  intros Hp. rewrite FullPaths_fragments.
  - by rewrite Hp, bind_app, bind_cons.
  - rewrite Hp. by destruct pre.
Qed.

Lemma fragment_paths_relative svc (p : string) :
  strings.HasPrefix p "//" = false →
  fragment_paths svc p
  = (λ base, httppath.Clean (path.Join [base; p])) <$> basePaths svc.
Proof. intros Hp. unfold expr.fragment_paths. by rewrite Hp. Qed.

Lemma fragment_paths_absolute svc (p : string) :
  strings.HasPrefix p "//" = true → fragment_paths svc p = [httppath.Clean p].
Proof. intros Hp. unfold expr.fragment_paths. by rewrite Hp. Qed.

Lemma fragment_paths_parent svc par ca r rs (p : string) :
  strings.HasPrefix p "//" = false →
  Parent Root svc = Some par → CanonicalEndpoint par = Some ca →
  Routes ca = r :: rs →
  fragment_paths svc p
  = (λ base, httppath.Clean (path.Join [path.Join [base]; p]))
      <$> RouteExpr_FullPaths r.
Proof.
  intros Hp Hpar Hca Hr. rewrite fragment_paths_relative by done.
  rewrite (basePaths_parent _ _ _ _ _ _ _ Hpar Hca Hr).
  by rewrite <- list_fmap_compose.
Qed.

Lemma fragment_paths_nonempty svc (p : string) :
  basePaths svc ≠ [] → fragment_paths svc p ≠ [].
Proof.
  intros Hb. unfold expr.fragment_paths.
  destruct (strings.HasPrefix p "//"); [done|].
  by destruct basePaths.
Qed.
End path_resolver_fragments.

(** C3 (as amended): for a service whose resolvable parent, if it has one,
    has a canonical endpoint with at least one route whose first route has
    at least one full path, [FullPaths] returns a non-empty list; whenever
    fragments are declared the list is, fragment by fragment and in
    declaration order, the cleaned fragment for an absolute override and
    otherwise one joined path per base path in the order of the base paths,
    duplicates included. *)
Theorem FullPaths_expansion {MappedAttributeExpr HTTPErrorExpr : Type}
    (Root : RootExpr MappedAttributeExpr HTTPErrorExpr)
    (RouteExpr_FullPaths : RouteExpr → list string)
    (svc : HTTPServiceExpr MappedAttributeExpr HTTPErrorExpr) :
  (∀ par, Parent Root svc = Some par →
     ∃ ca r rs, CanonicalEndpoint par = Some ca ∧ Routes ca = r :: rs ∧
                RouteExpr_FullPaths r ≠ []) →
  FullPaths Root RouteExpr_FullPaths svc ≠ [] ∧
  (Paths svc ≠ [] →
   FullPaths Root RouteExpr_FullPaths svc
   = Paths svc ≫= λ p,
       if strings.HasPrefix p "//" then [httppath.Clean p]
       else (λ base, httppath.Clean (path.Join [base; p]))
              <$> basePaths Root RouteExpr_FullPaths svc).
Proof.
  intros Hparent.
  assert (basePaths Root RouteExpr_FullPaths svc ≠ []) as Hbase.
  { destruct (Parent Root svc) as [par|] eqn:Hpar.
    - destruct (Hparent par eq_refl) as (ca & r & rs & Hca & Hr & Hne).
      rewrite (basePaths_parent _ _ _ _ _ _ _ Hpar Hca Hr).
      by destruct (RouteExpr_FullPaths r).
    - by rewrite basePaths_no_parent. }
  split.
  - destruct (Paths svc) as [|p ps] eqn:Hps.
    + by rewrite FullPaths_no_fragment.
    + rewrite FullPaths_fragments by (by rewrite Hps).
      rewrite Hps. apply bind_nonempty; [done|].
      intros x _. by apply fragment_paths_nonempty.
  - intros Hne. by rewrite FullPaths_fragments.
Qed.

(** C4: a fragment that does not start with [//] is joined onto the full
    paths of the first route of the parent's canonical endpoint when the
    parent resolves, and onto the API root path when there is no parent; in
    particular the single fragment [/b/{id}] under a parent whose canonical
    route has the full paths [/a] gives exactly [/a/b/{id}]. *)
Theorem FullPaths_joins_parent_route {MappedAttributeExpr HTTPErrorExpr : Type}
    (Root : RootExpr MappedAttributeExpr HTTPErrorExpr)
    (RouteExpr_FullPaths : RouteExpr → list string)
    (svc : HTTPServiceExpr MappedAttributeExpr HTTPErrorExpr) (p : string) :
  strings.HasPrefix p "//" = false →
  (∀ par ca r rs pre post,
     Parent Root svc = Some par → CanonicalEndpoint par = Some ca →
     Routes ca = r :: rs → Paths svc = pre ++ p :: post →
     FullPaths Root RouteExpr_FullPaths svc
     = (pre ≫= fragment_paths Root RouteExpr_FullPaths svc)
       ++ ((λ base, httppath.Clean (path.Join [path.Join [base]; p]))
             <$> RouteExpr_FullPaths r)
       ++ (post ≫= fragment_paths Root RouteExpr_FullPaths svc)) ∧
  (∀ pre post,
     Parent Root svc = None → Paths svc = pre ++ p :: post →
     FullPaths Root RouteExpr_FullPaths svc
     = (pre ≫= fragment_paths Root RouteExpr_FullPaths svc)
       ++ [httppath.Clean (path.Join [HTTPExpr_Path (HTTP (API Root)); p])]
       ++ (post ≫= fragment_paths Root RouteExpr_FullPaths svc)) ∧
  (∀ par ca r rs,
     Parent Root svc = Some par → CanonicalEndpoint par = Some ca →
     Routes ca = r :: rs → RouteExpr_FullPaths r = ["/a"] →
     p = "/b/{id}" → Paths svc = [p] →
     FullPaths Root RouteExpr_FullPaths svc = ["/a/b/{id}"]).
Proof.
  intros Hp. split_and!.
  - intros par ca r rs pre post Hpar Hca Hr Hps.
    rewrite (FullPaths_at _ _ _ _ _ _ Hps).
    by rewrite (fragment_paths_parent _ _ _ _ _ _ _ _ Hp Hpar Hca Hr).
  - intros pre post Hpar Hps.
    rewrite (FullPaths_at _ _ _ _ _ _ Hps).
    rewrite fragment_paths_relative by done.
    by rewrite basePaths_no_parent.
  - intros par ca r rs Hpar Hca Hr Hfull -> Hps.
    rewrite (FullPaths_at _ _ svc [] [] _ Hps).
    rewrite (fragment_paths_parent _ _ _ _ _ _ _ _ Hp Hpar Hca Hr), Hfull.
    reflexivity.
Qed.

(** C5: a fragment that starts with [//] stands for itself, cleaned,
    whatever the API root path, the declared services and the parent of the
    service are; in particular the fragment [//x] gives exactly [/x]. *)
Theorem FullPaths_absolute_fragment {MappedAttributeExpr HTTPErrorExpr : Type}
    (Root : RootExpr MappedAttributeExpr HTTPErrorExpr)
    (RouteExpr_FullPaths : RouteExpr → list string)
    (svc : HTTPServiceExpr MappedAttributeExpr HTTPErrorExpr) (p : string) :
  strings.HasPrefix p "//" = true →
  (∀ pre post,
     Paths svc = pre ++ p :: post →
     FullPaths Root RouteExpr_FullPaths svc
     = (pre ≫= fragment_paths Root RouteExpr_FullPaths svc)
       ++ [httppath.Clean p]
       ++ (post ≫= fragment_paths Root RouteExpr_FullPaths svc)) ∧
  (Paths svc = [p] →
   FullPaths Root RouteExpr_FullPaths svc = [httppath.Clean p]) ∧
  (p = "//x" → Paths svc = [p] →
   FullPaths Root RouteExpr_FullPaths svc = ["/x"]).
Proof.
  intros Hp.
  assert (∀ pre post, Paths svc = pre ++ p :: post →
     FullPaths Root RouteExpr_FullPaths svc
     = (pre ≫= fragment_paths Root RouteExpr_FullPaths svc)
       ++ [httppath.Clean p]
       ++ (post ≫= fragment_paths Root RouteExpr_FullPaths svc)) as Hat.
  { intros pre post Hps. rewrite (FullPaths_at _ _ _ _ _ _ Hps).
    by rewrite fragment_paths_absolute. }
  split_and!; [done| |].
  - intros Hps. by rewrite (Hat [] [] Hps).
  - intros -> Hps. by rewrite (Hat [] [] Hps).
Qed.

(** C6 (as amended): a service that declares no path fragment has exactly
    one full path, the API root path as [path.Join] returns it: the empty
    string when the root path is empty, the lexically cleaned root path
    otherwise; with the root path [/] the result is exactly [/]. *)
Theorem FullPaths_no_fragments {MappedAttributeExpr HTTPErrorExpr : Type}
    (Root : RootExpr MappedAttributeExpr HTTPErrorExpr)
    (RouteExpr_FullPaths : RouteExpr → list string)
    (svc : HTTPServiceExpr MappedAttributeExpr HTTPErrorExpr) :
  Paths svc = [] →
  FullPaths Root RouteExpr_FullPaths svc
  = [if decide (HTTPExpr_Path (HTTP (API Root)) = "") then ""
     else path.Clean (HTTPExpr_Path (HTTP (API Root)))] ∧
  (HTTPExpr_Path (HTTP (API Root)) = "/" →
   FullPaths Root RouteExpr_FullPaths svc = ["/"]).
Proof.
  intros Hps. rewrite FullPaths_no_fragment by done. split.
  - by rewrite Join_single.
  - by intros ->.
Qed.

(** ** Properties of the canonical endpoint and the URI template *)

Lemma Endpoint_Some {MappedAttributeExpr HTTPErrorExpr : Type}
    (svc : HTTPServiceExpr MappedAttributeExpr HTTPErrorExpr)
    (name : string) (a : HTTPEndpointExpr) :
  Endpoint svc name = Some a ↔
  ∃ i, HTTPEndpoints svc !! i = Some a ∧ HTTPEndpointExpr_Name a = name ∧
       ∀ j b, HTTPEndpoints svc !! j = Some b → j < i →
              HTTPEndpointExpr_Name b ≠ name.
Proof.
  unfold Endpoint. split.
  - intros H. apply fmap_Some in H as ([i a'] & Hfind & ->).
    apply list_find_Some in Hfind. by exists i.
  - intros (i & Hi & Hname & Hfirst). apply fmap_Some. exists (i, a).
    split; [|done]. by apply list_find_Some.
Qed.

Lemma Endpoint_None {MappedAttributeExpr HTTPErrorExpr : Type}
    (svc : HTTPServiceExpr MappedAttributeExpr HTTPErrorExpr) (name : string) :
  Endpoint svc name = None ↔
  ∀ a, a ∈ HTTPEndpoints svc → HTTPEndpointExpr_Name a ≠ name.
Proof.
  unfold Endpoint. rewrite fmap_None, list_find_None, Forall_forall.
  done.
Qed.

(** C7 (as amended): the canonical endpoint is the first endpoint named by
    [CanonicalEndpointName], or named [show] when that name is unset;
    [URITemplate] returns the empty string when there is no canonical
    endpoint or when it has no route, and, when the first route of the
    canonical endpoint has at least one full path, the first of these full
    paths. *)
Theorem URITemplate_canonical_route {MappedAttributeExpr HTTPErrorExpr : Type}
    (RouteExpr_FullPaths : RouteExpr → list string)
    (svc : HTTPServiceExpr MappedAttributeExpr HTTPErrorExpr) :
  (CanonicalEndpointName svc = "" →
   CanonicalEndpoint svc = Endpoint svc "show") ∧
  (CanonicalEndpointName svc ≠ "" →
   CanonicalEndpoint svc = Endpoint svc (CanonicalEndpointName svc)) ∧
  (∀ name a, Endpoint svc name = Some a ↔
     ∃ i, HTTPEndpoints svc !! i = Some a ∧ HTTPEndpointExpr_Name a = name ∧
          ∀ j b, HTTPEndpoints svc !! j = Some b → j < i →
                 HTTPEndpointExpr_Name b ≠ name) ∧
  (CanonicalEndpoint svc = None →
   URITemplate RouteExpr_FullPaths svc = Returned "") ∧
  (∀ ca, CanonicalEndpoint svc = Some ca → Routes ca = [] →
   URITemplate RouteExpr_FullPaths svc = Returned "") ∧
  (∀ ca r rs p ps,
     CanonicalEndpoint svc = Some ca → Routes ca = r :: rs →
     RouteExpr_FullPaths r = p :: ps →
     URITemplate RouteExpr_FullPaths svc = Returned p).
Proof.
  split_and!.
  - intros Hn. unfold CanonicalEndpoint. by rewrite Hn.
  - intros Hn. unfold CanonicalEndpoint. by case_decide.
  - intros name a. apply Endpoint_Some.
  - intros Hca. unfold URITemplate. by rewrite Hca.
  - intros ca Hca Hr. unfold URITemplate. by rewrite Hca, Hr.
  - intros ca r rs p ps Hca Hr Hfull. unfold URITemplate.
    by rewrite Hca, Hr, Hfull.
Qed.

(** ** Properties of the scheme collection *)

Section schemes.
Variable url_Parse : string → option url.URL * option string.

Lemma Schemes_loop_Panicked (l : list ServerExpr) :
  foldl (Schemes_step url_Parse) Panicked l = Panicked.
Proof. by induction l. Qed.

(** A server whose URL parses leaves the set of schemes as it is. *)
Lemma Schemes_loop_parsed (l : list ServerExpr) (schemes : gset string) :
  Forall (λ s, (url_Parse (URL s)).2 = None) l →
  foldl (Schemes_step url_Parse) (Returned schemes) l = Returned schemes.
Proof.
  induction 1 as [|s l Hs _ IH]; [done|]. simpl.
  destruct (url_Parse (URL s)) as [u err]. simpl in Hs. by subst err.
Qed.

(** When errors come with a nil URL, a server whose URL does not parse
    makes the loop dereference nil. *)
Lemma Schemes_loop_unparsed (l : list ServerExpr) (schemes : gset string) :
  (∀ rawURL e, (url_Parse rawURL).2 = Some e → (url_Parse rawURL).1 = None) →
  ¬ Forall (λ s, (url_Parse (URL s)).2 = None) l →
  foldl (Schemes_step url_Parse) (Returned schemes) l = Panicked.
Proof.
  intros Hnil. induction l as [|s l IH]; intros Hl.
  - by destruct Hl.
  - simpl. specialize (Hnil (URL s)).
    destruct (url_Parse (URL s)) as [u [e|]] eqn:Hparse; simpl in *.
    + rewrite (Hnil e eq_refl). apply Schemes_loop_Panicked.
    + apply IH. intros Hall. apply Hl. constructor; [|done].
      by rewrite Hparse.
Qed.
End schemes.

(** C10: when every server URL of the service parses, [Schemes] returns
    nothing; with a parser that returns a nil URL along with an error, as
    [url.Parse] does, [Schemes] returns nothing or dereferences nil; and an
    iteration of the loop only adds a scheme when the parser has returned
    an error. *)
Theorem Schemes_parsed_urls_give_nothing
    {MappedAttributeExpr HTTPErrorExpr : Type}
    (url_Parse : string → option url.URL * option string)
    (svc : HTTPServiceExpr MappedAttributeExpr HTTPErrorExpr) :
  (Forall (λ s, (url_Parse (URL s)).2 = None)
     (Servers (HTTPServiceExpr_ServiceExpr svc)) →
   Schemes url_Parse svc = Returned []) ∧
  ((∀ rawURL e, (url_Parse rawURL).2 = Some e → (url_Parse rawURL).1 = None) →
   Schemes url_Parse svc
   = if decide (Forall (λ s, (url_Parse (URL s)).2 = None)
                  (Servers (HTTPServiceExpr_ServiceExpr svc)))
     then Returned [] else Panicked) ∧
  (∀ (s : ServerExpr) (schemes schemes' : gset string),
     Schemes_step url_Parse (Returned schemes) s = Returned schemes' →
     schemes' ≠ schemes →
     ∃ u e, url_Parse (URL s) = (Some u, Some e) ∧
            schemes' = {[ url.Scheme u ]} ∪ schemes).
Proof.
  assert (Forall (λ s, (url_Parse (URL s)).2 = None)
            (Servers (HTTPServiceExpr_ServiceExpr svc)) →
          Schemes url_Parse svc = Returned []) as Hparsed.
  { intros Hall. unfold Schemes. by rewrite Schemes_loop_parsed. }
  split_and!; [done| |].
  - intros Hnil. case_decide as Hall; [by apply Hparsed|].
    unfold Schemes. by rewrite Schemes_loop_unparsed.
  - intros s schemes schemes' Hstep Hne. unfold Schemes_step in Hstep.
    destruct (url_Parse (URL s)) as [[u|] [e|]]; simplify_eq; eauto.
Qed.

(** C1 (the code at a failing input): the two server URLs of the sample
    service parse, with the schemes [https] and [http], and [Schemes]
    returns nothing instead of these schemes in ascending order. *)
Theorem Schemes_drops_parsed_schemes :
  url.ParseScheme "https://example.com"
    = (Some {| url.Scheme := "https" |}, None) ∧
  url.ParseScheme "http://example.com:8080/v1"
    = (Some {| url.Scheme := "http" |}, None) ∧
  sort.Strings ["https"; "http"] = ["http"; "https"] ∧
  Schemes url.ParseScheme sample.web = Returned [].
Proof. split_and!; vm_compute; reflexivity. Qed.

(** ** Properties of the validation of a service *)

Lemma append_inv_head (s a b : string) : s +:+ a = s +:+ b → a = b.
Proof. induction s as [|c s IH]; simpl; [done|]. intros [=]. auto. Qed.

(** The three diagnostics on the parent of a service are different
    messages. *)
Lemma parent_messages_distinct (n : string) :
  fmt.Sprintf "Parent service %s not found" [n]
    ≠ fmt.Sprintf "Parent service %s has no canonical endpoint" [n] ∧
  fmt.Sprintf "Parent service %s not found" [n]
    ≠ fmt.Sprintf "Parent service %s is also child" [n] ∧
  fmt.Sprintf "Parent service %s has no canonical endpoint" [n]
    ≠ fmt.Sprintf "Parent service %s is also child" [n].
Proof.
  split_and!; simpl; intros [= H%append_inv_head]; discriminate.
Qed.

Lemma Merge_loop {E : Type} (f : E → eval.ValidationErrors) (l : list E)
    (verr : eval.ValidationErrors) :
  foldl (λ verr er, eval.Merge verr (f er)) verr l = verr ++ (l ≫= f).
Proof. unfold eval.Merge. apply foldl_snoc_bind. Qed.

Section validation.
Context {MappedAttributeExpr HTTPErrorExpr : Type}.
Variable Root : RootExpr MappedAttributeExpr HTTPErrorExpr.
Variable MappedAttributeExpr_Validate :
  MappedAttributeExpr → string →
  HTTPServiceExpr MappedAttributeExpr HTTPErrorExpr → eval.ValidationErrors.
Variable HTTPErrorExpr_Validate : HTTPErrorExpr → eval.ValidationErrors.
Implicit Types svc : HTTPServiceExpr MappedAttributeExpr HTTPErrorExpr.

(** [Validate] records, in this order, the diagnostics of the parameters,
    of the headers, of the parent, of the canonical endpoint name, of the
    errors of the service and of the errors of the API. *)
Lemma Validate_blocks svc :
  Validate Root MappedAttributeExpr_Validate HTTPErrorExpr_Validate svc
  = (default [] ((λ ps, MappedAttributeExpr_Validate ps "parameters" svc)
                   <$> Params svc)
     ++ default [] ((λ hs, MappedAttributeExpr_Validate hs "headers" svc)
                      <$> Headers svc))
    ++ (if decide (ParentName svc ≠ "") then
          match Service (HTTP (API Root)) (ParentName svc) with
          | None =>
              [fmt.Sprintf "Parent service %s not found" [ParentName svc]]
          | Some p =>
              (if CanonicalEndpoint p is None
               then [fmt.Sprintf "Parent service %s has no canonical endpoint"
                       [ParentName svc]]
               else [])
              ++ (if decide (ParentName p = HTTPServiceExpr_Name svc)
                  then [fmt.Sprintf "Parent service %s is also child"
                          [ParentName svc]]
                  else [])
          end
        else [])
    ++ ((if decide (CanonicalEndpointName svc ≠ "") then
           if Endpoint svc (CanonicalEndpointName svc) is None
           then [fmt.Sprintf "Unknown canonical endpoint %s"
                   [CanonicalEndpointName svc]]
           else []
         else [])
        ++ (HTTPErrors svc ≫= HTTPErrorExpr_Validate)
        ++ (Errors (HTTP (API Root)) ≫= HTTPErrorExpr_Validate)).
Proof.
  unfold Validate. rewrite !Merge_loop.
  unfold eval.Merge, eval.Add, eval.new_ValidationErrors.
  destruct (Params svc) as [ps|], (Headers svc) as [hs|]; simpl;
    (destruct (decide (ParentName svc ≠ "")) as [Hn|Hn];
     [destruct (Service (HTTP (API Root)) (ParentName svc)) as [p|];
      [destruct (CanonicalEndpoint p) as [ca|],
         (decide (ParentName p = HTTPServiceExpr_Name svc)) as [Hc|Hc]|]|]);
    (destruct (decide (CanonicalEndpointName svc ≠ "")) as [Hm|Hm];
     [destruct (Endpoint svc (CanonicalEndpointName svc)) as [a|]|]);
    simpl; rewrite ?app_nil_r, <- ?app_assoc; reflexivity.
Qed.
End validation.

(** C8 (as amended): for a service with a non-empty [ParentName],
    [Validate] records, between the diagnostics of the parameters and
    headers and those of the canonical endpoint name and of the errors,
    [Parent service %s not found] exactly when no service has that name,
    [Parent service %s has no canonical endpoint] exactly when the parent
    exists and has no canonical endpoint (whatever the routes of that
    endpoint), and [Parent service %s is also child] exactly when the parent
    exists and its [ParentName] is the name of this service; each at most
    once, and none of them stops the checks that follow. *)
Theorem Validate_parent_diagnostics {MappedAttributeExpr HTTPErrorExpr : Type}
    (Root : RootExpr MappedAttributeExpr HTTPErrorExpr)
    (MappedAttributeExpr_Validate :
       MappedAttributeExpr → string →
       HTTPServiceExpr MappedAttributeExpr HTTPErrorExpr →
       eval.ValidationErrors)
    (HTTPErrorExpr_Validate : HTTPErrorExpr → eval.ValidationErrors)
    (svc : HTTPServiceExpr MappedAttributeExpr HTTPErrorExpr) :
  ParentName svc ≠ "" →
  ∃ parent_diagnostics : list string,
    Validate Root MappedAttributeExpr_Validate HTTPErrorExpr_Validate svc
    = (default [] ((λ ps, MappedAttributeExpr_Validate ps "parameters" svc)
                     <$> Params svc)
       ++ default [] ((λ hs, MappedAttributeExpr_Validate hs "headers" svc)
                        <$> Headers svc))
      ++ parent_diagnostics
      ++ ((if decide (CanonicalEndpointName svc ≠ "") then
             if Endpoint svc (CanonicalEndpointName svc) is None
             then [fmt.Sprintf "Unknown canonical endpoint %s"
                     [CanonicalEndpointName svc]]
             else []
           else [])
          ++ (HTTPErrors svc ≫= HTTPErrorExpr_Validate)
          ++ (Errors (HTTP (API Root)) ≫= HTTPErrorExpr_Validate)) ∧
    NoDup parent_diagnostics ∧
    (∀ m, m ∈ parent_diagnostics →
       m = fmt.Sprintf "Parent service %s not found" [ParentName svc] ∨
       m = fmt.Sprintf "Parent service %s has no canonical endpoint"
             [ParentName svc] ∨
       m = fmt.Sprintf "Parent service %s is also child" [ParentName svc]) ∧
    (fmt.Sprintf "Parent service %s not found" [ParentName svc]
       ∈ parent_diagnostics
     ↔ Service (HTTP (API Root)) (ParentName svc) = None) ∧
    (fmt.Sprintf "Parent service %s has no canonical endpoint"
       [ParentName svc] ∈ parent_diagnostics
     ↔ ∃ p, Service (HTTP (API Root)) (ParentName svc) = Some p ∧
            CanonicalEndpoint p = None) ∧
    (fmt.Sprintf "Parent service %s is also child" [ParentName svc]
       ∈ parent_diagnostics
     ↔ ∃ p, Service (HTTP (API Root)) (ParentName svc) = Some p ∧
            ParentName p = HTTPServiceExpr_Name svc).
Proof.
  intros Hn. eexists. split.
  { rewrite Validate_blocks. rewrite decide_True by done. reflexivity. }
  destruct (parent_messages_distinct (ParentName svc)) as (Hd1 & Hd2 & Hd3).
  generalize dependent (fmt.Sprintf "Parent service %s not found"
                          [ParentName svc]).
  generalize dependent (fmt.Sprintf "Parent service %s has no canonical endpoint"
                          [ParentName svc]).
  generalize dependent (fmt.Sprintf "Parent service %s is also child"
                          [ParentName svc]).
  intros also_child no_canonical Hd3 not_found Hd1 Hd2.
  destruct (Service (HTTP (API Root)) (ParentName svc)) as [p|];
    [destruct (CanonicalEndpoint p) as [ca|] eqn:Hca,
       (decide (ParentName p = HTTPServiceExpr_Name svc)) as [Hc|Hc]|];
    cbn [app]; split_and!; try (intros m);
    rewrite ?NoDup_cons, ?elem_of_cons, ?elem_of_nil;
    try (by split_and?; try apply NoDup_nil_2; intuition congruence);
    by split; [|intros (q & [= <-] & Hq)]; intuition (eauto; congruence).
Qed.

(** ** Properties of the API DSL *)

Section api_dsl.
Context {DSLFunc : Type}.
Implicit Types w : dsl.World DSLFunc.
Implicit Types n : dsl.Node DSLFunc.

(** A new pointer is not in use. *)
Lemma alloc_fresh n w :
  dsl.Heap w !! (dsl.alloc n w).1 = None.
Proof. apply not_elem_of_dom, is_fresh. Qed.

Lemma alloc_Heap n w :
  dsl.Heap (dsl.alloc n w).2 = <[(dsl.alloc n w).1 := n]> (dsl.Heap w).
Proof. done. Qed.

Lemma Current_Top w : dsl.Current w = dsl.Top ↔ dsl.Stack w = [].
Proof.
  unfold dsl.Current. destruct (last (dsl.Stack w)) eqn:Hlast.
  - split; [done|]. intros Hnil. by rewrite Hnil in Hlast.
  - by apply last_None in Hlast.
Qed.

Lemma Current_Ref w e : dsl.Current w = dsl.Ref e ↔ last (dsl.Stack w) = Some e.
Proof.
  unfold dsl.Current. destruct (last (dsl.Stack w)); split; congruence.
Qed.

End api_dsl.


Section server_dsl.
Context {DSLFunc : Type}.
Variable call : DSLFunc → dsl.World DSLFunc → dsl.World DSLFunc.
Implicit Types w : dsl.World DSLFunc.

(** Running a closure that follows the evaluation protocol against a new
    node gives the stack back and changes no other node. *)
Lemma Execute_scoped (fn0 : option DSLFunc) (def e : dsl.loc) w :
  (∀ f, fn0 = Some f → dsl.scoped call f) →
  is_Some (dsl.Heap w !! def) → is_Some (dsl.Heap w !! e) → def ≠ e →
  dsl.Stack (dsl.Execute call fn0 def w).2 = dsl.Stack w ∧
  dsl.Heap (dsl.Execute call fn0 def w).2 !! e = dsl.Heap w !! e ∧
  is_Some (dsl.Heap (dsl.Execute call fn0 def w).2 !! def).
Proof.
  intros Hscoped Hdef He Hne. destruct fn0 as [f|]; [|done].
  destruct (Hscoped f eq_refl (dsl.set_Stack (dsl.Stack w ++ [def]) w))
    as (Hst & Hdom & Hframe).
  simpl in *. split_and!.
  - rewrite Hst, length_app. simpl.
    replace (length (dsl.Stack w) + 1 - 1) with (length (dsl.Stack w)) by lia.
    by rewrite take_app_length.
  - apply Hframe; [done|]. rewrite last_snoc. congruence.
  - apply elem_of_dom, Hdom, elem_of_dom. done.
Qed.
End server_dsl.

(** C9: [Server] called with the empty URL always records
    [Server URL cannot be empty]; called while an API or a service is being
    defined, with closures (if any) that follow the evaluation protocol,
    this is the last diagnostic it records, and it still appends the new
    server, a pointer that was not in use, to the server list of that API or
    service. *)
Theorem Server_empty_URL_still_appended {DSLFunc : Type}
    (call : DSLFunc → dsl.World DSLFunc → dsl.World DSLFunc)
    (fn : list (option DSLFunc)) (w : dsl.World DSLFunc) :
  "Server URL cannot be empty" ∈ dsl.Errors (dsl.Server call "" fn w) ∧
  ∀ (e : dsl.loc) (n : dsl.Node DSLFunc) (servers : list dsl.loc),
    dsl.Current w = dsl.Ref e →
    dsl.Heap w !! e = Some n →
    dsl.Servers n = Some servers →
    (∀ f, head fn = Some (Some f) → dsl.scoped call f) →
    ∃ server n',
      dsl.Heap w !! server = None ∧
      last (dsl.Errors (dsl.Server call "" fn w))
        = Some "Server URL cannot be empty" ∧
      is_Some (dsl.Heap (dsl.Server call "" fn w) !! server) ∧
      (fn = [] →
       dsl.Heap (dsl.Server call "" fn w) !! server
       = Some (dsl.NServer {| dsl.Server_URL := "" |})) ∧
      dsl.Heap (dsl.Server call "" fn w) !! e = Some n' ∧
      dsl.Servers n' = Some (servers ++ [server]) ∧
      dsl.Stack (dsl.Server call "" fn w) = dsl.Stack w.
Proof.
  split.
  { unfold dsl.Server.
    destruct (dsl.alloc _ _) as [server w1].
    set (w2 := match fn with fn0 :: _ => _ | [] => w1 end).
    rewrite decide_True by done.
    assert ("Server URL cannot be empty"
              ∈ dsl.Errors (dsl.ReportError "Server URL cannot be empty" w2))
      as Hrec.
    { simpl. apply elem_of_app. right. apply list_elem_of_here. }
    assert ("Server URL cannot be empty"
              ∈ dsl.Errors (dsl.IncompatibleDSL "Server"
                 (dsl.ReportError "Server URL cannot be empty" w2)))
      as Hinc.
    { unfold dsl.IncompatibleDSL. simpl. apply elem_of_app. by left. }
    destruct (dsl.Current _) as [|e]; [done|].
    by destruct (dsl.Heap _ !! e) as [[ | | | | | | | | ]|]. }
  intros e n servers Hcur He Hservers Hscoped. unfold dsl.Server.
  set (w0 := if decide (1 < length fn) then _ else w).
  assert (dsl.Heap w0 = dsl.Heap w ∧ dsl.Stack w0 = dsl.Stack w)
    as [Hheap0 Hstack0].
  { unfold w0. by case_decide. }
  set (node := dsl.NServer {| dsl.Server_URL := "" |}).
  pose proof (alloc_fresh node w0) as Hfresh.
  destruct (dsl.alloc node w0) as [server w1] eqn:Halloc.
  assert (dsl.Heap w1 = <[server := node]> (dsl.Heap w0) ∧
          dsl.Stack w1 = dsl.Stack w0) as [Hheap1 Hstack1].
  { unfold dsl.alloc in Halloc. by injection Halloc as <- <-. }
  simpl in Hfresh. rewrite Hheap0 in Hfresh.
  assert (server ≠ e) as Hne by congruence.
  set (w2 := match fn with fn0 :: _ => _ | [] => w1 end).
  assert (dsl.Stack w2 = dsl.Stack w ∧
          dsl.Heap w2 !! e = Some n ∧
          is_Some (dsl.Heap w2 !! server) ∧
          (fn = [] → dsl.Heap w2 !! server = Some node))
    as (Hstack2 & He2 & Hserver2 & Hnil2).
  { assert (dsl.Heap w1 !! e = Some n) as He1.
    { by rewrite Hheap1, lookup_insert_ne, Hheap0. }
    assert (dsl.Heap w1 !! server = Some node) as Hs1.
    { by rewrite Hheap1, lookup_insert_eq. }
    unfold w2. destruct fn as [|fn0 fn'].
    - rewrite Hstack1, Hstack0. eauto.
    - destruct (Execute_scoped call fn0 server e w1) as (Hst & Hh & Hs);
        [by intros f ->; apply Hscoped|by eauto|by eauto|done|].
      rewrite Hst, Hh, Hstack1, Hstack0. done. }
  rewrite decide_True by done.
  set (w3 := dsl.ReportError _ w2).
  assert (dsl.Current w3 = dsl.Ref e) as ->.
  { apply Current_Ref. simpl. rewrite Hstack2. by apply Current_Ref. }
  assert (dsl.Heap w3 !! e = Some n) as -> by done.
  exists server.
  destruct n as [a|s| | | | | | |]; try done; simpl in Hservers;
    injection Hservers as <-; eexists; simpl;
    (split_and!;
     [done
     |by rewrite last_snoc
     |by rewrite lookup_insert_ne
     |by intros Hfn; rewrite lookup_insert_ne; [apply Hnil2|]
     |by rewrite lookup_insert_eq
     |done
     |done]).
Qed.

(** ** The properties on the sample designs *)

(** C3 (counterexample): a service that declares a fragment and whose
    parent exists but has no canonical endpoint has no full path at all. *)
Lemma FullPaths_parent_without_canonical_endpoint :
  Paths sample.orphan = ["/b"] ∧
  Parent sample.design sample.orphan = Some sample.bare ∧
  CanonicalEndpoint sample.bare = None ∧
  FullPaths sample.design sample.Route_FullPaths sample.orphan = [].
Proof. split_and!; reflexivity. Qed.

Lemma FullPaths_expansion_witness :
  FullPaths sample.design sample.Route_FullPaths sample.child ≠ [] ∧
  FullPaths sample.design sample.Route_FullPaths sample.child
  = ["/a/b/{id}"].
Proof.
  destruct (FullPaths_expansion sample.design sample.Route_FullPaths
              sample.child) as [Hne Heq].
  - intros par [= <-].
    exists (sample.endpoint "show" ["/a"]),
      {| Method := "GET"; Path := "/a" |}, [].
    split_and!; [reflexivity|reflexivity|discriminate].
  - split; [exact Hne|]. rewrite Heq by discriminate. reflexivity.
Defined.

Lemma FullPaths_joins_parent_route_witness :
  strings.HasPrefix "/b/{id}" "//" = false ∧
  FullPaths sample.design sample.Route_FullPaths sample.child
  = ["/a/b/{id}"].
Proof.
  split; [reflexivity|].
  destruct (FullPaths_joins_parent_route sample.design sample.Route_FullPaths
              sample.child "/b/{id}" eq_refl) as (_ & _ & Hchild).
  apply (Hchild sample.parent (sample.endpoint "show" ["/a"])
           {| Method := "GET"; Path := "/a" |} []); reflexivity.
Defined.

Lemma FullPaths_absolute_fragment_witness :
  strings.HasPrefix "//x" "//" = true ∧
  FullPaths sample.design sample.Route_FullPaths
    (sample.http_service "files" [] ["//x"] "parent" "" [])
  = ["/x"].
Proof.
  split; [reflexivity|].
  destruct (FullPaths_absolute_fragment sample.design sample.Route_FullPaths
              (sample.http_service "files" [] ["//x"] "parent" "" [])
              "//x" eq_refl) as (_ & _ & Hx).
  apply Hx; reflexivity.
Defined.

(** C6 (counterexample): under the root path [/api/] a service without
    fragments has the full path [/api], not the root path. *)
Lemma FullPaths_root_path_is_cleaned :
  Paths sample.bare = [] ∧
  HTTPExpr_Path (HTTP (API sample.prefixed)) = "/api/" ∧
  FullPaths sample.prefixed sample.Route_FullPaths sample.bare = ["/api"] ∧
  FullPaths sample.prefixed sample.Route_FullPaths sample.bare
  ≠ [HTTPExpr_Path (HTTP (API sample.prefixed))].
Proof. split_and!; [reflexivity|reflexivity|reflexivity|discriminate]. Qed.

Lemma FullPaths_no_fragments_witness :
  Paths sample.bare = [] ∧
  FullPaths sample.design sample.Route_FullPaths sample.bare = ["/"] ∧
  FullPaths sample.prefixed sample.Route_FullPaths sample.bare = ["/api"].
Proof.
  split; [reflexivity|]. split.
  - apply (FullPaths_no_fragments sample.design sample.Route_FullPaths
             sample.bare eq_refl). reflexivity.
  - apply (FullPaths_no_fragments sample.prefixed sample.Route_FullPaths
             sample.bare eq_refl).
Defined.

(** C7 (counterexample): a service that passes validation and has a
    canonical endpoint with a route, but no full path because its parent's
    canonical endpoint has no route: the first route has no full path, and
    [URITemplate] indexes the empty list. *)
Lemma URITemplate_route_without_full_path :
  Validate sample.unrouted sample.Attr_Validate sample.Err_Validate
    sample.stray_show = [] ∧
  CanonicalEndpoint sample.stray_show
    = Some (sample.endpoint "show" ["/x"]) ∧
  Routes (sample.endpoint "show" ["/x"])
    = [{| Method := "GET"; Path := "/x" |}] ∧
  FullPaths sample.unrouted sample.Route_FullPaths sample.stray_show = [] ∧
  sample.Owner_FullPaths sample.stray_show {| Method := "GET"; Path := "/x" |}
    = [] ∧
  URITemplate (sample.Owner_FullPaths sample.stray_show) sample.stray_show
    = Panicked.
Proof. split_and!; reflexivity. Qed.

Lemma URITemplate_canonical_route_witness :
  CanonicalEndpoint sample.parent = Some (sample.endpoint "show" ["/a"]) ∧
  URITemplate sample.Route_FullPaths sample.parent = Returned "/a" ∧
  URITemplate sample.Route_FullPaths sample.bare = Returned "" ∧
  URITemplate sample.Route_FullPaths sample.routeless = Returned "".
Proof.
  destruct (URITemplate_canonical_route sample.Route_FullPaths sample.parent)
    as (Hshow & _ & _ & _ & _ & Hfirst).
  destruct (URITemplate_canonical_route sample.Route_FullPaths sample.bare)
    as (_ & _ & _ & Hnone & _ & _).
  destruct (URITemplate_canonical_route sample.Route_FullPaths
              sample.routeless) as (_ & _ & _ & _ & Hnoroute & _).
  split_and!.
  - rewrite Hshow by reflexivity. reflexivity.
  - apply (Hfirst (sample.endpoint "show" ["/a"])
             {| Method := "GET"; Path := "/a" |} [] "/a" []); reflexivity.
  - apply Hnone. reflexivity.
  - apply (Hnoroute (sample.endpoint "show" [])); reflexivity.
Defined.

(** The scheme parser returns a nil URL along with every error. *)
Lemma ParseScheme_error_nil (rawURL e : string) :
  (url.ParseScheme rawURL).2 = Some e → (url.ParseScheme rawURL).1 = None.
Proof.
  unfold url.ParseScheme. destruct (existsb _ _); [done|].
  by destruct (url.getScheme _ _).
Qed.

Lemma Schemes_parsed_urls_give_nothing_witness :
  Forall (λ s, (url.ParseScheme (URL s)).2 = None)
    (Servers (HTTPServiceExpr_ServiceExpr sample.web)) ∧
  Schemes url.ParseScheme sample.web = Returned [] ∧
  Schemes url.ParseScheme sample.broken = Panicked.
Proof.
  assert (Forall (λ s, (url.ParseScheme (URL s)).2 = None)
            (Servers (HTTPServiceExpr_ServiceExpr sample.web))) as Hweb.
  { repeat constructor. }
  split; [exact Hweb|]. split.
  - exact (proj1 (Schemes_parsed_urls_give_nothing url.ParseScheme sample.web)
             Hweb).
  - rewrite (proj1 (proj2 (Schemes_parsed_urls_give_nothing url.ParseScheme
                             sample.broken)) ParseScheme_error_nil).
    apply decide_False. intros Hall. by inversion Hall.
Defined.

(** C8 (counterexample): the parent of the service has a canonical
    endpoint without any route, and the validation of the service records
    nothing. *)
Lemma Validate_parent_without_route :
  Service (HTTP (API sample.design)) (ParentName sample.stray)
    = Some sample.routeless ∧
  CanonicalEndpoint sample.routeless = Some (sample.endpoint "show" []) ∧
  Routes (sample.endpoint "show" []) = [] ∧
  Validate sample.design sample.Attr_Validate sample.Err_Validate sample.stray
  = [].
Proof. split_and!; reflexivity. Qed.

Lemma Validate_parent_diagnostics_witness :
  ParentName sample.ping ≠ "" ∧
  "Parent service pong has no canonical endpoint"
    ∈ Validate sample.design sample.Attr_Validate sample.Err_Validate
        sample.ping ∧
  "Parent service pong is also child"
    ∈ Validate sample.design sample.Attr_Validate sample.Err_Validate
        sample.ping.
Proof.
  assert (ParentName sample.ping ≠ "") as Hn by discriminate.
  split; [exact Hn|].
  destruct (Validate_parent_diagnostics sample.design sample.Attr_Validate
              sample.Err_Validate sample.ping Hn)
    as (mid & -> & _ & _ & _ & Hcanonical & Hchild).
  split; apply elem_of_app; right; apply elem_of_app; left.
  - apply Hcanonical. exists sample.pong. split; reflexivity.
  - apply Hchild. exists sample.pong. split; reflexivity.
Defined.



(** A title closure follows the evaluation protocol. *)
Lemma Title_scoped (val : string) : dsl.scoped dsl.Title val.
Proof.
  intros w. unfold dsl.Title, dsl.Current.
  destruct (last (dsl.Stack w)) as [e|] eqn:Hlast; [|done].
  destruct (dsl.Heap w !! e) as [[a| | | | | | | |]|] eqn:He; try done.
  simpl. split_and!; [done| |].
  - rewrite dom_insert_L. set_solver.
  - intros l _ Hl. apply lookup_insert_ne. congruence.
Qed.

Lemma Server_empty_URL_still_appended_witness :
  dsl.Current sample.API_body = dsl.Ref 1%positive ∧
  ∃ server n',
    last (dsl.Errors (dsl.Server dsl.Title "" [Some "title"] sample.API_body))
      = Some "Server URL cannot be empty" ∧
    dsl.Heap (dsl.Server dsl.Title "" [Some "title"] sample.API_body)
      !! 1%positive = Some n' ∧
    dsl.Servers n' = Some [server].
Proof.
  split; [reflexivity|].
  destruct (proj2 (Server_empty_URL_still_appended dsl.Title [Some "title"]
                     sample.API_body) 1%positive
              (dsl.NAPI {| dsl.API_DSLFunc := None; dsl.API_Name := "adder";
                           dsl.API_Title := ""; dsl.API_Version := "";
                           dsl.API_TermsOfService := "";
                           dsl.API_Contact := None; dsl.API_License := None;
                           dsl.API_Docs := None; dsl.API_Servers := [] |})
              [] eq_refl eq_refl eq_refl)
    as (server & n' & _ & Herr & _ & _ & Hheap & Hservers & _).
  - intros f _. apply Title_scoped.
  - exists server, n'. split_and!; assumption.
Defined.

(** ** Further properties: building and finding endpoints *)

Section endpoints.
Context {MappedAttributeExpr HTTPErrorExpr : Type}.
Implicit Types svc : HTTPServiceExpr MappedAttributeExpr HTTPErrorExpr.

(** Appending an endpoint leaves the endpoints found before as they were,
    and makes the new one the answer for its own name when nothing had that
    name. *)
Lemma Endpoint_append svc (a : HTTPEndpointExpr) (name : string) :
  Endpoint (append_HTTPEndpoint a svc) name
  = match Endpoint svc name with
    | Some b => Some b
    | None => if decide (HTTPEndpointExpr_Name a = name) then Some a else None
    end.
Proof.
  unfold Endpoint. simpl.
  destruct (list_find _ (HTTPEndpoints svc)) as [[i b]|] eqn:Hfind.
  - by rewrite (list_find_app_l _ _ _ _ _ Hfind).
  - rewrite list_find_app_r by done. simpl. by case_decide.
Qed.

Lemma Endpoint_name svc (name : string) (a : HTTPEndpointExpr) :
  Endpoint svc name = Some a → HTTPEndpointExpr_Name a = name.
Proof. intros (i & _ & Hname & _)%Endpoint_Some. done. Qed.
End endpoints.

(** [EndpointFor] called with the name of the method returns an endpoint of
    that name which [Endpoint] then finds under that name, and calling it
    again, with any method, returns the same endpoint and leaves the service
    as it is. *)
Theorem EndpointFor_then_Endpoint {MappedAttributeExpr HTTPErrorExpr : Type}
    (svc : HTTPServiceExpr MappedAttributeExpr HTTPErrorExpr)
    (name : string) (m m' : MethodExpr) :
  MethodExpr_Name m = name →
  HTTPEndpointExpr_Name (EndpointFor svc name m).1 = name ∧
  Endpoint (EndpointFor svc name m).2 name = Some (EndpointFor svc name m).1 ∧
  EndpointFor (EndpointFor svc name m).2 name m' = EndpointFor svc name m.
Proof.
  intros Hm. unfold EndpointFor at 1 2 3 5.
  destruct (Endpoint svc name) as [a|] eqn:Hfind; simpl.
  - split_and!; [by eapply Endpoint_name|done|].
    unfold EndpointFor. by rewrite Hfind.
  - assert (Endpoint
              (append_HTTPEndpoint
                 {| HTTPEndpointExpr_MethodExpr := m; Routes := [] |} svc)
              name
            = Some {| HTTPEndpointExpr_MethodExpr := m; Routes := [] |})
      as Hnew.
    { rewrite Endpoint_append, Hfind. by rewrite decide_True by exact Hm. }
    split_and!; [done|done|]. unfold EndpointFor. by rewrite Hnew, Hfind.
Qed.

(** [EndpointFor] looks the endpoint up under [name] but names the endpoint
    it creates after the method: when the two differ and no endpoint is
    called [name], the new endpoint is not found under [name], and every
    further call appends one more endpoint. *)
Theorem EndpointFor_name_mismatch {MappedAttributeExpr HTTPErrorExpr : Type}
    (svc : HTTPServiceExpr MappedAttributeExpr HTTPErrorExpr)
    (name : string) (m : MethodExpr) :
  MethodExpr_Name m ≠ name →
  Endpoint svc name = None →
  Endpoint (EndpointFor svc name m).2 name = None ∧
  HTTPEndpoints (EndpointFor (EndpointFor svc name m).2 name m).2
  = HTTPEndpoints svc
    ++ [ {| HTTPEndpointExpr_MethodExpr := m; Routes := [] |};
         {| HTTPEndpointExpr_MethodExpr := m; Routes := [] |} ].
Proof.
  intros Hm Hfind.
  assert (Endpoint (EndpointFor svc name m).2 name = None) as Hstill.
  { unfold EndpointFor. rewrite Hfind. simpl.
    rewrite Endpoint_append, Hfind. by rewrite decide_False by exact Hm. }
  split; [done|].
  unfold EndpointFor at 1. rewrite Hstill. simpl.
  unfold EndpointFor. rewrite Hfind. simpl. by rewrite <- app_assoc.
Qed.


Lemma EndpointFor_then_Endpoint_witness :
  MethodExpr_Name {| MethodExpr_Name := "show" |} = "show" ∧
  Endpoint (EndpointFor sample.bare "show" {| MethodExpr_Name := "show" |}).2
    "show"
  = Some {| HTTPEndpointExpr_MethodExpr := {| MethodExpr_Name := "show" |};
            Routes := [] |}.
Proof.
  split; [reflexivity|].
  destruct (EndpointFor_then_Endpoint sample.bare "show"
              {| MethodExpr_Name := "show" |} {| MethodExpr_Name := "show" |}
              eq_refl) as (_ & Hfound & _).
  rewrite Hfound. reflexivity.
Defined.

Lemma EndpointFor_name_mismatch_witness :
  MethodExpr_Name {| MethodExpr_Name := "get" |} ≠ "show" ∧
  Endpoint sample.bare "show" = None ∧
  Endpoint (EndpointFor sample.bare "show" {| MethodExpr_Name := "get" |}).2
    "show" = None.
Proof.
  assert (MethodExpr_Name {| MethodExpr_Name := "get" |} ≠ "show") as Hm
    by discriminate.
  split; [exact Hm|]. split; [reflexivity|].
  exact (proj1 (EndpointFor_name_mismatch sample.bare "show"
                  {| MethodExpr_Name := "get" |} Hm eq_refl)).
Defined.


(** ** Further properties: errors of a service *)

(** [HTTPError] returns the first declared error with the name: nil exactly
    when no error has the name, and an error declared after another one of
    the same name is never returned. *)
Theorem HTTPError_first_match {MappedAttributeExpr HTTPErrorExpr : Type}
    (HTTPErrorExpr_Name : HTTPErrorExpr → string)
    (svc : HTTPServiceExpr MappedAttributeExpr HTTPErrorExpr)
    (name : string) :
  (HTTPError HTTPErrorExpr_Name svc name = None ↔
   ∀ erro, erro ∈ HTTPErrors svc → HTTPErrorExpr_Name erro ≠ name) ∧
  (∀ erro, HTTPError HTTPErrorExpr_Name svc name = Some erro →
     HTTPErrorExpr_Name erro = name ∧ erro ∈ HTTPErrors svc) ∧
  (∀ pre erro post,
     HTTPErrors svc = pre ++ erro :: post →
     HTTPErrorExpr_Name erro = name →
     (∀ other, other ∈ pre → HTTPErrorExpr_Name other ≠ name) →
     HTTPError HTTPErrorExpr_Name svc name = Some erro).
Proof.
  unfold HTTPError. split_and!.
  - by rewrite fmap_None, list_find_None, Forall_forall.
  - intros erro ([i e] & (Hi & Hn & _)%list_find_Some & ->)%fmap_Some.
    split; [done|]. by eapply list_elem_of_lookup_2.
  - intros pre erro post -> Hn Hpre. apply fmap_Some.
    exists (length pre, erro). split; [|done].
    apply list_find_Some. split_and!; [|done|].
    + by rewrite lookup_app_r, Nat.sub_diag by lia.
    + intros j y Hj Hlt. apply Hpre.
      rewrite lookup_app_l in Hj by done. by eapply list_elem_of_lookup_2.
Qed.

Lemma HTTPError_first_match_witness :
  HTTPError (HTTPErrorExpr := string * nat) fst
    {| HTTPServiceExpr_ServiceExpr := sample.service "s" [];
       Paths := []; Params := @None unit; Headers := None; ParentName := "";
       CanonicalEndpointName := ""; HTTPEndpoints := [];
       HTTPErrors := [("not_found", 404); ("conflict", 409);
                      ("not_found", 410)] |}
    "not_found"
  = Some ("not_found", 404).
Proof.
  destruct (HTTPError_first_match (HTTPErrorExpr := string * nat) fst
              {| HTTPServiceExpr_ServiceExpr := sample.service "s" [];
                 Paths := []; Params := @None unit; Headers := None;
                 ParentName := ""; CanonicalEndpointName := "";
                 HTTPEndpoints := [];
                 HTTPErrors := [("not_found", 404); ("conflict", 409);
                                ("not_found", 410)] |}
              "not_found") as (_ & _ & Hfirst).
  apply (Hfirst [] ("not_found", 404) [("conflict", 409); ("not_found", 410)]).
  - reflexivity.
  - reflexivity.
  - intros other Hother. by apply elem_of_nil in Hother.
Defined.

(** ** Further properties: validation as a whole *)

Lemma bind_nil_Forall {A B : Type} (f : A → list B) (l : list A) :
  l ≫= f = [] ↔ Forall (λ x, f x = []) l.
Proof.
  induction l as [|x l IH]; simpl.
  - split; [by constructor|done].
  - rewrite app_nil, IH, Forall_cons. done.
Qed.

Section validation_whole.
Context {MappedAttributeExpr HTTPErrorExpr : Type}.
Variable Root : RootExpr MappedAttributeExpr HTTPErrorExpr.
Implicit Types svc : HTTPServiceExpr MappedAttributeExpr HTTPErrorExpr.

(** The checks on the parent record nothing exactly when the parent, if
    one is named, resolves, has a canonical endpoint and does not name the
    service as its own parent. *)
Lemma parent_checks_nil svc :
  (if decide (ParentName svc ≠ "") then
     match Service (HTTP (API Root)) (ParentName svc) with
     | None => [fmt.Sprintf "Parent service %s not found" [ParentName svc]]
     | Some p =>
         (if CanonicalEndpoint p is None
          then [fmt.Sprintf "Parent service %s has no canonical endpoint"
                  [ParentName svc]]
          else [])
         ++ (if decide (ParentName p = HTTPServiceExpr_Name svc)
             then [fmt.Sprintf "Parent service %s is also child"
                     [ParentName svc]]
             else [])
     end
   else []) = []
  ↔ (ParentName svc ≠ "" →
     ∃ p, Parent Root svc = Some p ∧ is_Some (CanonicalEndpoint p) ∧
          ParentName p ≠ HTTPServiceExpr_Name svc).
Proof.
  unfold Parent.
  destruct (decide (ParentName svc ≠ "")) as [Hn|Hn]; [|done].
  destruct (Service (HTTP (API Root)) (ParentName svc)) as [p|].
  - destruct (CanonicalEndpoint p) as [ca|] eqn:Hca,
      (decide (ParentName p = HTTPServiceExpr_Name svc)) as [Hc|Hc];
      cbn [app]; (split; [intros Hnil; try discriminate Hnil|intros Hok]).
    + destruct (Hok Hn) as (q & [= <-] & _ & Hq). done.
    + intros _. exists p. split_and!; [done| |done]. rewrite Hca. by eexists.
    + done.
    + destruct (Hok Hn) as (q & [= <-] & [? Hq] & _). by rewrite Hca in Hq.
    + destruct (Hok Hn) as (q & [= <-] & [? Hq] & _). by rewrite Hca in Hq.
  - split; [done|]. intros Hok. by destruct (Hok Hn) as (q & Hq & _).
Qed.

Lemma canonical_check_nil svc :
  (if decide (CanonicalEndpointName svc ≠ "") then
     if Endpoint svc (CanonicalEndpointName svc) is None
     then [fmt.Sprintf "Unknown canonical endpoint %s"
             [CanonicalEndpointName svc]]
     else []
   else []) = []
  ↔ (CanonicalEndpointName svc ≠ "" → is_Some (CanonicalEndpoint svc)).
Proof.
  unfold CanonicalEndpoint.
  destruct (decide (CanonicalEndpointName svc ≠ "")) as [Hn|Hn]; [|done].
  rewrite decide_False by done.
  destruct (Endpoint svc (CanonicalEndpointName svc)).
  - split; [by eauto|done].
  - split; [done|]. intros Hsome. by destruct (Hsome Hn).
Qed.
End validation_whole.

(** [Validate] records nothing exactly when the parameters and the headers
    validate, the parent (if one is named) resolves, has a canonical
    endpoint and does not name the service as its parent, the canonical
    endpoint (if one is named) exists, and the errors of the service and of
    the API validate.  Nothing else is checked: neither the endpoint [show]
    when no canonical endpoint is named, nor the routes of the parent's
    canonical endpoint, nor parent chains that come back to the service
    after more than two steps. *)
Theorem Validate_nil_iff {MappedAttributeExpr HTTPErrorExpr : Type}
    (Root : RootExpr MappedAttributeExpr HTTPErrorExpr)
    (MappedAttributeExpr_Validate :
       MappedAttributeExpr → string →
       HTTPServiceExpr MappedAttributeExpr HTTPErrorExpr →
       eval.ValidationErrors)
    (HTTPErrorExpr_Validate : HTTPErrorExpr → eval.ValidationErrors)
    (svc : HTTPServiceExpr MappedAttributeExpr HTTPErrorExpr) :
  Validate Root MappedAttributeExpr_Validate HTTPErrorExpr_Validate svc = []
  ↔ (∀ ps, Params svc = Some ps →
           MappedAttributeExpr_Validate ps "parameters" svc = []) ∧
    (∀ hs, Headers svc = Some hs →
           MappedAttributeExpr_Validate hs "headers" svc = []) ∧
    (ParentName svc ≠ "" →
     ∃ p, Parent Root svc = Some p ∧ is_Some (CanonicalEndpoint p) ∧
          ParentName p ≠ HTTPServiceExpr_Name svc) ∧
    (CanonicalEndpointName svc ≠ "" → is_Some (CanonicalEndpoint svc)) ∧
    Forall (λ er, HTTPErrorExpr_Validate er = []) (HTTPErrors svc) ∧
    Forall (λ er, HTTPErrorExpr_Validate er = []) (Errors (HTTP (API Root))).
Proof.
  rewrite Validate_blocks. unfold eval.ValidationErrors in *.
  rewrite !app_nil, !bind_nil_Forall.
  rewrite parent_checks_nil, canonical_check_nil.
  assert (∀ (o : option MappedAttributeExpr) (ctx : string),
            default [] ((λ a, MappedAttributeExpr_Validate a ctx svc) <$> o)
              = []
            ↔ ∀ a, o = Some a → MappedAttributeExpr_Validate a ctx svc = [])
    as Hattr.
  { intros [a|] ctx; simpl; [|done]. split; [by intros ? ? [= <-]|auto]. }
  rewrite !Hattr. tauto.
Qed.

(* The ring of three services passes validation. *)
Lemma Validate_nil_iff_witness :
  Parent sample.ring sample.ring_a = Some sample.ring_b ∧
  Parent sample.ring sample.ring_b = Some sample.ring_c ∧
  Parent sample.ring sample.ring_c = Some sample.ring_a ∧
  Validate sample.ring sample.Attr_Validate sample.Err_Validate sample.ring_a
  = [].
Proof.
  split_and!; [reflexivity..|].
  apply (Validate_nil_iff sample.ring sample.Attr_Validate sample.Err_Validate
           sample.ring_a).
  split_and!.
  - intros ps [=].
  - intros hs [=].
  - intros _. exists sample.ring_b.
    split_and!; [reflexivity|by eexists|discriminate].
  - intros Hn. by destruct Hn.
  - constructor.
  - constructor.
Defined.

(** Two services that name each other as parent, each being the service
    that its name resolves to, both get the diagnostic
    [Parent service %s is also child]; a service that names itself as parent
    is the case where the two are the same. *)
Theorem Validate_two_cycle {MappedAttributeExpr HTTPErrorExpr : Type}
    (Root : RootExpr MappedAttributeExpr HTTPErrorExpr)
    (MappedAttributeExpr_Validate :
       MappedAttributeExpr → string →
       HTTPServiceExpr MappedAttributeExpr HTTPErrorExpr →
       eval.ValidationErrors)
    (HTTPErrorExpr_Validate : HTTPErrorExpr → eval.ValidationErrors)
    (a b : HTTPServiceExpr MappedAttributeExpr HTTPErrorExpr) :
  HTTPServiceExpr_Name a ≠ "" → HTTPServiceExpr_Name b ≠ "" →
  Service (HTTP (API Root)) (HTTPServiceExpr_Name a) = Some a →
  Service (HTTP (API Root)) (HTTPServiceExpr_Name b) = Some b →
  ParentName a = HTTPServiceExpr_Name b →
  ParentName b = HTTPServiceExpr_Name a →
  fmt.Sprintf "Parent service %s is also child" [HTTPServiceExpr_Name b]
    ∈ Validate Root MappedAttributeExpr_Validate HTTPErrorExpr_Validate a ∧
  fmt.Sprintf "Parent service %s is also child" [HTTPServiceExpr_Name a]
    ∈ Validate Root MappedAttributeExpr_Validate HTTPErrorExpr_Validate b.
Proof.
  assert (∀ x y : HTTPServiceExpr MappedAttributeExpr HTTPErrorExpr,
            HTTPServiceExpr_Name y ≠ "" →
            Service (HTTP (API Root)) (HTTPServiceExpr_Name y) = Some y →
            ParentName x = HTTPServiceExpr_Name y →
            ParentName y = HTTPServiceExpr_Name x →
            fmt.Sprintf "Parent service %s is also child"
              [HTTPServiceExpr_Name y]
              ∈ Validate Root MappedAttributeExpr_Validate
                  HTTPErrorExpr_Validate x) as Hone.
  { intros x y Hy Hsvc Hxy Hyx. rewrite Validate_blocks.
    apply elem_of_app. right. apply elem_of_app. left.
    rewrite Hxy, decide_True, Hsvc, decide_True by done.
    apply elem_of_app. right. apply list_elem_of_here. }
  intros Ha Hb Hsa Hsb Hab Hba. split; by apply Hone.
Qed.

Lemma Validate_two_cycle_witness :
  "Parent service pong is also child"
    ∈ Validate sample.design sample.Attr_Validate sample.Err_Validate
        sample.ping ∧
  "Parent service ping is also child"
    ∈ Validate sample.design sample.Attr_Validate sample.Err_Validate
        sample.pong.
Proof.
  apply (Validate_two_cycle sample.design sample.Attr_Validate
           sample.Err_Validate sample.ping sample.pong);
    first [discriminate | reflexivity].
Defined.

(** The errors of the API are validated with every service: their
    diagnostics end the result of [Validate] for any service, so that one
    API error that does not validate makes every service invalid. *)
Theorem Validate_API_errors {MappedAttributeExpr HTTPErrorExpr : Type}
    (Root : RootExpr MappedAttributeExpr HTTPErrorExpr)
    (MappedAttributeExpr_Validate :
       MappedAttributeExpr → string →
       HTTPServiceExpr MappedAttributeExpr HTTPErrorExpr →
       eval.ValidationErrors)
    (HTTPErrorExpr_Validate : HTTPErrorExpr → eval.ValidationErrors)
    (svc : HTTPServiceExpr MappedAttributeExpr HTTPErrorExpr) :
  (Errors (HTTP (API Root)) ≫= HTTPErrorExpr_Validate)
    `suffix_of` Validate Root MappedAttributeExpr_Validate
                  HTTPErrorExpr_Validate svc ∧
  (∀ er, er ∈ Errors (HTTP (API Root)) → HTTPErrorExpr_Validate er ≠ [] →
     Validate Root MappedAttributeExpr_Validate HTTPErrorExpr_Validate svc
     ≠ []).
Proof.
  assert ((Errors (HTTP (API Root)) ≫= HTTPErrorExpr_Validate)
            `suffix_of` Validate Root MappedAttributeExpr_Validate
                          HTTPErrorExpr_Validate svc) as Hsuffix.
  { rewrite Validate_blocks, !app_assoc. by apply suffix_app_r. }
  split; [done|]. intros er Her Hbad Hnil. rewrite Hnil in Hsuffix.
  apply suffix_nil_inv, bind_nil_Forall in Hsuffix.
  rewrite Forall_forall in Hsuffix. by apply Hbad, Hsuffix.
Qed.

Lemma Validate_API_errors_witness :
  ["status code missing"] ∈ [["status code missing"]] ∧
  Validate
    {| API := {| APIExpr_Name := "api";
                 HTTP := {| HTTPExpr_Path := "/"; Services := [sample.bare];
                            Errors := [["status code missing"]] |} |} |}
    sample.Attr_Validate sample.Err_Validate sample.bare ≠ [].
Proof.
  assert (["status code missing"] ∈ [["status code missing"]]) as Hin
    by apply list_elem_of_here.
  split; [exact Hin|].
  apply (proj2 (Validate_API_errors
                  {| API := {| APIExpr_Name := "api";
                               HTTP := {| HTTPExpr_Path := "/";
                                          Services := [sample.bare];
                                          Errors := [["status code missing"]]
                                       |} |} |}
                  sample.Attr_Validate sample.Err_Validate sample.bare)
           ["status code missing"] Hin).
  discriminate.
Defined.

(** ** Further properties: the shape of the full paths *)

(** The buffer of [httppath.Clean] keeps its leading slash. *)
Lemma backtrack_last (buf : list ascii) (c : ascii) :
  1 < length buf → last buf = Some c →
  last (httppath.backtrack buf) = Some c.
Proof.
  unfold httppath.backtrack.
  induction buf as [|x buf IH]; simpl; [lia|]. intros Hlen Hlast.
  destruct buf as [|y buf]; [simpl in Hlen; lia|].
  rewrite last_cons_cons in Hlast.
  destruct ((1 <? length (y :: buf))%nat && negb (path.is_slash x)) eqn:Hcond;
    [|done].
  apply andb_true_iff in Hcond as [Hlt%Nat.ltb_lt _]. by apply IH.
Qed.

Lemma last_cons_keep {A : Type} (x y : A) (l : list A) :
  last l = Some y → last (x :: l) = Some y.
Proof. intros Hl. by rewrite last_cons, Hl. Qed.

Lemma httppath_Clean_loop_last (n : nat) :
  ∀ (p buf : list ascii) (trailing : bool),
    (length p ≤ n)%nat → last buf = Some path.slash →
    last (httppath.Clean_loop p buf trailing).1 = Some path.slash.
Proof.
  induction n as [|n IH]; intros p buf trailing Hlen Hbuf;
    (destruct p as [|c p']; [done|simpl in Hlen; try lia]).
  assert (∀ (q o : list ascii),
            (length q ≤ n)%nat → last o = Some path.slash →
            last ((fix copy (q : list ascii) (o : list ascii) {struct q}
                     : list ascii * bool :=
                     match q with
                     | [] => (o, trailing)
                     | d :: q' =>
                         if path.is_slash d
                         then httppath.Clean_loop q' o trailing
                         else copy q' (d :: o)
                     end) q o).1 = Some path.slash) as Hcopy.
  { induction q as [|d q IHq]; intros o Hq Ho; [done|]. simpl in Hq.
    destruct (path.is_slash d).
    - apply IH; [lia|done].
    - apply IHq; [lia|by apply last_cons_keep]. }
  assert (last (c :: (if (1 <? length buf)%nat then path.slash :: buf else buf))
          = Some path.slash) as Helem.
  { apply last_cons_keep. case_match; [by apply last_cons_keep|done]. }
  assert (∀ q t, (length q ≤ n)%nat →
            last (if (1 <? length buf)%nat
                  then httppath.Clean_loop q (httppath.backtrack buf) t
                  else httppath.Clean_loop q buf t).1 = Some path.slash)
    as Hdotdot.
  { intros q t Hq. destruct (1 <? length buf)%nat eqn:Hlt.
    - apply IH; [done|]. apply backtrack_last; [by apply Nat.ltb_lt|done].
    - by apply IH. }
  simpl. simpl in Hlen.
  destruct (path.is_slash c); [apply IH; [lia|done]|].
  destruct (path.is_dot c); [|apply Hcopy; [lia|exact Helem]].
  destruct p' as [|c1 p'']; [by apply IH; [simpl; lia|]|].
  simpl in Hlen.
  destruct (path.is_slash c1); [apply IH; [simpl; lia|done]|].
  destruct (path.is_dot c1); [|apply Hcopy; [simpl; lia|exact Helem]].
  destruct p'' as [|c2 p''']; [apply Hdotdot; simpl; lia|].
  simpl in Hlen.
  destruct (path.is_slash c2); [apply Hdotdot; simpl; lia|].
  apply Hcopy; [simpl; lia|exact Helem].
Qed.

(** What [httppath.Clean] returns starts with a slash. *)
Lemma httppath_Clean_rooted (p : string) :
  ∃ rest, httppath.Clean p = String "/" rest.
Proof.
  unfold httppath.Clean.
  destruct (list_ascii_of_string p) as [|c p']; [by eexists|].
  set (t := (2 <? length (c :: p'))%nat && _).
  assert (∃ buf tr,
            (if path.is_slash c
             then httppath.Clean_loop p' [path.slash] t
             else httppath.Clean_loop (c :: p') [path.slash] t) = (buf, tr)
            ∧ last buf = Some path.slash) as (buf & tr & -> & Hlast).
  { destruct (path.is_slash c).
    - destruct (httppath.Clean_loop p' [path.slash] t) as [buf tr] eqn:Hloop.
      exists buf, tr. split; [done|].
      change buf with (buf, tr).1. rewrite <- Hloop.
      by apply (httppath_Clean_loop_last (length p')).
    - destruct (httppath.Clean_loop (c :: p') [path.slash] t)
        as [buf tr] eqn:Hloop.
      exists buf, tr. split; [done|].
      change buf with (buf, tr).1. rewrite <- Hloop.
      by apply (httppath_Clean_loop_last (length (c :: p'))). }
  assert (last (if tr && (1 <? length buf)%nat then path.slash :: buf else buf)
          = Some path.slash) as Hfinal.
  { case_match; [by apply last_cons_keep|done]. }
  apply last_Some in Hfinal as [l' ->].
  rewrite rev_unit. by eexists.
Qed.

(** When a service declares fragments, each of its full paths starts with a
    slash, whatever the fragments, the API root path and the full paths of
    the parent's route are. *)
Theorem FullPaths_rooted {MappedAttributeExpr HTTPErrorExpr : Type}
    (Root : RootExpr MappedAttributeExpr HTTPErrorExpr)
    (RouteExpr_FullPaths : RouteExpr → list string)
    (svc : HTTPServiceExpr MappedAttributeExpr HTTPErrorExpr) (p : string) :
  Paths svc ≠ [] →
  p ∈ FullPaths Root RouteExpr_FullPaths svc →
  ∃ rest, p = String "/" rest.
Proof.
  intros Hne. rewrite FullPaths_fragments by done.
  intros (fragment & Hp & _)%list_elem_of_bind.
  unfold fragment_paths in Hp.
  destruct (strings.HasPrefix fragment "//").
  - apply list_elem_of_singleton in Hp as ->. apply httppath_Clean_rooted.
  - apply list_elem_of_fmap in Hp as (base & -> & _).
    apply httppath_Clean_rooted.
Qed.

Lemma FullPaths_rooted_witness :
  Paths sample.child ≠ [] ∧
  "/a/b/{id}" ∈ FullPaths sample.design sample.Route_FullPaths sample.child ∧
  ∃ rest, "/a/b/{id}" = String "/" rest.
Proof.
  assert (Paths sample.child ≠ []) as Hne by discriminate.
  assert ("/a/b/{id}"
            ∈ FullPaths sample.design sample.Route_FullPaths sample.child)
    as Hin by apply list_elem_of_here.
  split; [exact Hne|]. split; [exact Hin|].
  exact (FullPaths_rooted sample.design sample.Route_FullPaths sample.child
           "/a/b/{id}" Hne Hin).
Defined.

Lemma length_fragments {A B : Type} (absolute : A → bool) (f : A → list B)
    (k : nat) (l : list A) :
  (∀ x, absolute x = true → length (f x) = 1) →
  (∀ x, absolute x = false → length (f x) = k) →
  length (l ≫= f)
  = length (filter (λ x, absolute x = true) l)
    + length (filter (λ x, absolute x = false) l) * k.
Proof.
  intros Habs Hrel. induction l as [|x l IH]; [done|].
  rewrite bind_cons, length_app, IH, !filter_cons.
  destruct (absolute x) eqn:Hx.
  - rewrite decide_True, decide_False by done. rewrite (Habs x Hx). simpl. lia.
  - rewrite decide_False, decide_True by done. rewrite (Hrel x Hx). simpl. lia.
Qed.

(** The number of full paths of a service that declares fragments: one for
    each fragment that starts with [//], and for each other fragment as
    many as there are base paths; so a service without parent has exactly
    one full path per fragment, and a service whose parent lacks a
    canonical route keeps only its [//] fragments. *)
Theorem FullPaths_length {MappedAttributeExpr HTTPErrorExpr : Type}
    (Root : RootExpr MappedAttributeExpr HTTPErrorExpr)
    (RouteExpr_FullPaths : RouteExpr → list string)
    (svc : HTTPServiceExpr MappedAttributeExpr HTTPErrorExpr) :
  Paths svc ≠ [] →
  length (FullPaths Root RouteExpr_FullPaths svc)
  = length (filter (λ p, strings.HasPrefix p "//" = true) (Paths svc))
    + length (filter (λ p, strings.HasPrefix p "//" = false) (Paths svc))
      * length (basePaths Root RouteExpr_FullPaths svc) ∧
  (Parent Root svc = None →
   length (FullPaths Root RouteExpr_FullPaths svc) = length (Paths svc)) ∧
  (basePaths Root RouteExpr_FullPaths svc = [] →
   FullPaths Root RouteExpr_FullPaths svc
   = httppath.Clean
       <$> filter (λ p, strings.HasPrefix p "//" = true) (Paths svc)).
Proof.
  intros Hne. rewrite FullPaths_fragments by done.
  assert (length (Paths svc ≫= fragment_paths Root RouteExpr_FullPaths svc)
          = length (filter (λ p, strings.HasPrefix p "//" = true) (Paths svc))
            + length (filter (λ p, strings.HasPrefix p "//" = false)
                        (Paths svc))
              * length (basePaths Root RouteExpr_FullPaths svc)) as Hlen.
  { apply length_fragments; intros p Hp; unfold fragment_paths; rewrite Hp;
      [done|by rewrite length_fmap]. }
  split_and!; [done| |].
  - intros Hparent. rewrite Hlen, basePaths_no_parent by done. simpl.
    clear. induction (Paths svc) as [|p ps IH]; [done|].
    rewrite !filter_cons. simpl.
    destruct (strings.HasPrefix p "//").
    + rewrite decide_True, decide_False by done. simpl. lia.
    + rewrite decide_False, decide_True by done. simpl. lia.
  - intros Hbase. unfold fragment_paths. rewrite Hbase. clear.
    induction (Paths svc) as [|p ps IH]; [done|].
    rewrite bind_cons, filter_cons, IH.
    destruct (strings.HasPrefix p "//"); [by rewrite decide_True|].
    by rewrite decide_False.
Qed.

Lemma FullPaths_length_witness :
  Paths sample.orphan ≠ [] ∧
  basePaths sample.design sample.Route_FullPaths sample.orphan = [] ∧
  length (FullPaths sample.design sample.Route_FullPaths sample.orphan) = 0.
Proof.
  assert (Paths sample.orphan ≠ []) as Hne by discriminate.
  split; [exact Hne|]. split; [reflexivity|].
  rewrite (proj1 (FullPaths_length sample.design sample.Route_FullPaths
                    sample.orphan Hne)).
  reflexivity.
Defined.

(** ** Further properties: what [Schemes] returns when it returns *)

Section schemes_result.
Variable url_Parse : string → option url.URL * option string.

End schemes_result.



(** ** Further properties: the setters of the API DSL *)

Section setters.
Context {DSLFunc : Type}.
Implicit Types w : dsl.World DSLFunc.

Lemma IncompatibleDSL_rejected (caller : string) w :
  dsl.rejected w (dsl.IncompatibleDSL caller w).
Proof. unfold dsl.rejected, dsl.IncompatibleDSL. simpl. eauto. Qed.

Lemma Current_Node_Some w n :
  dsl.Current_Node w = Some n ↔
  ∃ e, dsl.Current w = dsl.Ref e ∧ dsl.Heap w !! e = Some n.
Proof.
  unfold dsl.Current_Node. destruct (dsl.Current w) as [|e].
  - split; [done|]. by intros (? & ? & _).
  - split; [by eauto|]. by intros (? & [= <-] & ?).
Qed.

(** Writing to the node being defined follows the protocol and allocates
    nothing. *)
Lemma store_current w e n :
  dsl.Current w = dsl.Ref e → is_Some (dsl.Heap w !! e) →
  dsl.Stack (dsl.store e n w) = dsl.Stack w ∧
  dsl.Errors (dsl.store e n w) = dsl.Errors w ∧
  dsl.Root_API (dsl.store e n w) = dsl.Root_API w ∧
  dom (dsl.Heap (dsl.store e n w)) = dom (dsl.Heap w) ∧
  ∀ l, last (dsl.Stack w) ≠ Some l →
       dsl.Heap (dsl.store e n w) !! l = dsl.Heap w !! l.
Proof.
  intros Hcur%Current_Ref He. simpl. split_and!; try done.
  - rewrite dom_insert_L. apply subseteq_union_1_L, singleton_subseteq_l.
    by apply elem_of_dom.
  - intros l Hl. apply lookup_insert_ne. congruence.
Qed.
End setters.

(** The steps a setter can take. *)
Ltac setter_cases w :=
  unfold dsl.Current_Node in *;
  destruct (dsl.Current w) as [|?e] eqn:?Hcur;
    [|destruct (dsl.Heap w !! e) as [[?a|?s|?s|?c|?l|?d|?o|?o|?o]|] eqn:?He].

(** [API] returns nil exactly when the name is empty or when an expression
    is being defined; it then records one diagnostic and leaves memory, the
    stack and [Root.API] as they are. *)
Theorem API_returns_nil {DSLFunc : Type} (name : string)
    (fn : option DSLFunc) (w : dsl.World DSLFunc) :
  ((dsl.API name fn w).1 = None ↔ name = "" ∨ dsl.Stack w ≠ []) ∧
  ((dsl.API name fn w).1 = None → dsl.rejected w (dsl.API name fn w).2).
Proof.
  unfold dsl.API. destruct (decide (name = "")) as [Hn|Hn]; simpl.
  - split; [split; [by auto|done]|].
    intros _. unfold dsl.rejected. simpl. eauto.
  - destruct (dsl.Current w) as [|e] eqn:Hcur; simpl.
    + apply Current_Top in Hcur. split; [|done].
      split; [done|]. by intros [?|?].
    + split; [|intros _; apply IncompatibleDSL_rejected].
      split; [|done]. intros _. right. intros Hst.
      apply Current_Top in Hst. congruence.
Qed.

Lemma API_returns_nil_witness :
  (dsl.API "divider" None sample.API_body).1 = None ∧
  dsl.Root_API (dsl.API "divider" None sample.API_body).2
  = dsl.Root_API sample.API_body.
Proof.
  assert ((dsl.API "divider" None sample.API_body).1 = None) as Hnil.
  { apply (proj1 (API_returns_nil "divider" None sample.API_body)).
    right. discriminate. }
  split; [exact Hnil|].
  destruct (proj2 (API_returns_nil "divider" None sample.API_body) Hnil)
    as (_ & _ & Hroot & _).
  exact Hroot.
Defined.



(** Called on an expression they do not accept, or at top level, [Title],
    [Version], [TermsOfService], [Name] and [URL] record one diagnostic and
    change nothing else; [Email] outside a contact records nothing and
    changes nothing. *)
Theorem setters_wrong_context {DSLFunc : Type} (w : dsl.World DSLFunc)
    (val : string) :
  ((∀ a, dsl.Current_Node w ≠ Some (dsl.NAPI a)) →
   dsl.rejected w (dsl.Title val w) ∧
   dsl.rejected w (dsl.Version val w) ∧
   dsl.rejected w (dsl.TermsOfService val w)) ∧
  ((∀ c, dsl.Current_Node w ≠ Some (dsl.NContact c)) →
   (∀ l, dsl.Current_Node w ≠ Some (dsl.NLicense l)) →
   dsl.rejected w (dsl.Name val w)) ∧
  ((∀ c, dsl.Current_Node w ≠ Some (dsl.NContact c)) →
   (∀ l, dsl.Current_Node w ≠ Some (dsl.NLicense l)) →
   (∀ d, dsl.Current_Node w ≠ Some (dsl.NDocs d)) →
   dsl.rejected w (dsl.URL val w)) ∧
  ((∀ c, dsl.Current_Node w ≠ Some (dsl.NContact c)) →
   dsl.Email val w = w).
Proof.
  unfold dsl.Title, dsl.Version, dsl.TermsOfService, dsl.Name, dsl.URL,
    dsl.Email.
  split_and!; intros; split_and?; setter_cases w;
    first [apply IncompatibleDSL_rejected | reflexivity | naive_solver].
Qed.

Lemma setters_wrong_context_witness :
  dsl.Current_Node (dsl.empty_World (DSLFunc := unit)) = None ∧
  dsl.Errors (dsl.Name "n" (dsl.empty_World (DSLFunc := unit)))
  = ["invalid use of Name in eval.TopExpr"] ∧
  dsl.Email "e" (dsl.empty_World (DSLFunc := unit)) = dsl.empty_World.
Proof.
  split; [reflexivity|].
  destruct (setters_wrong_context (dsl.empty_World (DSLFunc := unit)) "n")
    as (_ & Hname & _ & _).
  destruct (setters_wrong_context (dsl.empty_World (DSLFunc := unit)) "e")
    as (_ & _ & _ & Hemail).
  split.
  - destruct Hname as (_ & _ & _ & msg & Hmsg); [done|done|]. reflexivity.
  - apply Hemail. done.
Defined.

(** The six setters follow the evaluation protocol: they leave the stack
    and [Root.API] alone, allocate nothing, and write to no node other than
    the one being defined. *)
Theorem setters_follow_protocol {DSLFunc : Type} (val : string) :
  Forall (λ g : dsl.World DSLFunc → dsl.World DSLFunc,
            dsl.follows_protocol g ∧
            ∀ w, dom (dsl.Heap (g w)) = dom (dsl.Heap w) ∧
                 dsl.Root_API (g w) = dsl.Root_API w)
    [dsl.Title val; dsl.Version val; dsl.TermsOfService val;
     dsl.Name val; dsl.Email val; dsl.URL val].
Proof.
  assert (∀ (w : dsl.World DSLFunc) e n,
            dsl.Current w = dsl.Ref e → is_Some (dsl.Heap w !! e) →
            (dsl.Stack (dsl.store e n w) = dsl.Stack w ∧
             dom (dsl.Heap w) ⊆ dom (dsl.Heap (dsl.store e n w)) ∧
             ∀ l, is_Some (dsl.Heap w !! l) → last (dsl.Stack w) ≠ Some l →
                  dsl.Heap (dsl.store e n w) !! l = dsl.Heap w !! l) ∧
            dom (dsl.Heap (dsl.store e n w)) = dom (dsl.Heap w) ∧
            dsl.Root_API (dsl.store e n w) = dsl.Root_API w) as Hstore.
  { intros w e n Hcur He.
    destruct (store_current w e n Hcur He) as (Hst & _ & Hroot & Hdom & Hfr).
    split_and!; [done|by rewrite Hdom|by auto|done|done]. }
  assert (∀ (w w' : dsl.World DSLFunc),
            dsl.Heap w' = dsl.Heap w → dsl.Stack w' = dsl.Stack w →
            dsl.Root_API w' = dsl.Root_API w →
            (dsl.Stack w' = dsl.Stack w ∧
             dom (dsl.Heap w) ⊆ dom (dsl.Heap w') ∧
             ∀ l, is_Some (dsl.Heap w !! l) → last (dsl.Stack w) ≠ Some l →
                  dsl.Heap w' !! l = dsl.Heap w !! l) ∧
            dom (dsl.Heap w') = dom (dsl.Heap w) ∧
            dsl.Root_API w' = dsl.Root_API w) as Hsame.
  { intros w w' Hh Hs Hr. rewrite Hh. done. }
  assert (∀ g : dsl.World DSLFunc → dsl.World DSLFunc,
            (∀ w,
               (dsl.Stack (g w) = dsl.Stack w ∧
                dom (dsl.Heap w) ⊆ dom (dsl.Heap (g w)) ∧
                ∀ l, is_Some (dsl.Heap w !! l) →
                     last (dsl.Stack w) ≠ Some l →
                     dsl.Heap (g w) !! l = dsl.Heap w !! l) ∧
               dom (dsl.Heap (g w)) = dom (dsl.Heap w) ∧
               dsl.Root_API (g w) = dsl.Root_API w) →
            dsl.follows_protocol g ∧
            ∀ w, dom (dsl.Heap (g w)) = dom (dsl.Heap w) ∧
                 dsl.Root_API (g w) = dsl.Root_API w) as Hpack.
  { intros g Hg. split; intros w; by destruct (Hg w). }
  repeat (apply Forall_cons_2;
    [apply Hpack; intros w;
     unfold dsl.Title, dsl.Version, dsl.TermsOfService, dsl.Name, dsl.URL,
       dsl.Email;
     setter_cases w;
     first [ by apply Hstore; [|rewrite He; eexists]
           | by apply Hsame ]|]).
  apply Forall_nil_2.
Qed.

(** ** Further properties: declarations that run a closure *)

Section declarations.
Context {DSLFunc : Type}.
Variable call : DSLFunc → dsl.World DSLFunc → dsl.World DSLFunc.
Implicit Types w : dsl.World DSLFunc.
Implicit Types n : dsl.Node DSLFunc.

Lemma extends_refl w : dsl.extends w w.
Proof. by split. Qed.

Lemma extends_trans w1 w2 w3 :
  dsl.extends w1 w2 → dsl.extends w2 w3 → dsl.extends w1 w3.
Proof.
  intros [Hs12 Hh12] [Hs23 Hh23]. split; [congruence|].
  intros l Hl. rewrite Hh23, Hh12; [done..|]. by rewrite Hh12.
Qed.

Lemma extends_Current w w' :
  dsl.extends w w' → dsl.Current w' = dsl.Current w.
Proof. intros [Hs _]. unfold dsl.Current. by rewrite Hs. Qed.

Lemma extends_ReportError (msg : string) w :
  dsl.extends w (dsl.ReportError msg w).
Proof. by split. Qed.

Lemma extends_IncompatibleDSL (caller : string) w :
  dsl.extends w (dsl.IncompatibleDSL caller w).
Proof. by split. Qed.

Lemma extends_alloc n w :
  dsl.extends w (dsl.alloc n w).2.
Proof.
  split; [done|]. intros l Hl. simpl. apply lookup_insert_ne.
  intros Heq. pose proof (alloc_fresh n w) as Hfresh. simpl in Hfresh.
  rewrite <- Heq, Hfresh in Hl. by destruct Hl.
Qed.

(** Running a closure that follows the protocol against a node leaves the
    stack and every other node as they were. *)
Lemma Execute_frame (fn0 : option DSLFunc) (def : dsl.loc) w :
  (∀ f, fn0 = Some f → dsl.scoped call f) →
  dsl.Stack (dsl.Execute call fn0 def w).2 = dsl.Stack w ∧
  (∀ l, is_Some (dsl.Heap w !! l) →
        is_Some (dsl.Heap (dsl.Execute call fn0 def w).2 !! l)) ∧
  ∀ l, is_Some (dsl.Heap w !! l) → l ≠ def →
       dsl.Heap (dsl.Execute call fn0 def w).2 !! l = dsl.Heap w !! l.
Proof.
  intros Hscoped. destruct fn0 as [f|]; [|done].
  destruct (Hscoped f eq_refl (dsl.set_Stack (dsl.Stack w ++ [def]) w))
    as (Hst & Hdom & Hframe).
  simpl in *. split_and!.
  - rewrite Hst, length_app. simpl.
    replace (length (dsl.Stack w) + 1 - 1) with (length (dsl.Stack w)) by lia.
    by rewrite take_app_length.
  - intros l Hl. by apply elem_of_dom, Hdom, elem_of_dom.
  - intros l Hl Hne. apply Hframe; [done|]. rewrite last_snoc. congruence.
Qed.

(** Allocating a node and running a closure against it extends the world,
    and the new node is still there. *)
Lemma declare_extends n (fn0 : option DSLFunc) w :
  (∀ f, fn0 = Some f → dsl.scoped call f) →
  dsl.extends w (dsl.Execute call fn0 (dsl.alloc n w).1 (dsl.alloc n w).2).2 ∧
  dsl.Heap w !! (dsl.alloc n w).1 = None ∧
  is_Some (dsl.Heap
             (dsl.Execute call fn0 (dsl.alloc n w).1 (dsl.alloc n w).2).2
             !! (dsl.alloc n w).1).
Proof.
  intros Hscoped.
  destruct (Execute_frame fn0 (dsl.alloc n w).1 (dsl.alloc n w).2 Hscoped)
    as (Hst & Hsome & Hframe).
  pose proof (alloc_fresh n w) as Hfresh.
  destruct (extends_alloc n w) as [Hst1 Hh1].
  split_and!; [|done|].
  - split; [congruence|]. intros l Hl.
    assert (l ≠ (dsl.alloc n w).1) as Hne.
    { intros ->. rewrite Hfresh in Hl. by destruct Hl. }
    rewrite Hframe; [by apply Hh1|by rewrite Hh1|done].
  - apply Hsome. simpl. rewrite lookup_insert_eq. by eexists.
Qed.
End declarations.

Section declarations_protocol.
Context {DSLFunc : Type}.
Variable call : DSLFunc → dsl.World DSLFunc → dsl.World DSLFunc.
Implicit Types w : dsl.World DSLFunc.
Implicit Types n : dsl.Node DSLFunc.

(** What the protocol asks of a step from [w] to [w']. *)
Lemma extends_protocol w w' :
  dsl.extends w w' →
  dsl.Stack w' = dsl.Stack w ∧
  dom (dsl.Heap w) ⊆ dom (dsl.Heap w') ∧
  ∀ l, is_Some (dsl.Heap w !! l) → last (dsl.Stack w) ≠ Some l →
       dsl.Heap w' !! l = dsl.Heap w !! l.
Proof.
  intros [Hst Hh]. split_and!; [done| |by auto].
  intros l Hl%elem_of_dom. apply elem_of_dom. by rewrite Hh.
Qed.

(** Writing to the current node after an extension still follows the
    protocol. *)
Lemma extends_store_protocol w w' (e : dsl.loc) n :
  dsl.extends w w' → dsl.Current w' = dsl.Ref e →
  dsl.Stack (dsl.store e n w') = dsl.Stack w ∧
  dom (dsl.Heap w) ⊆ dom (dsl.Heap (dsl.store e n w')) ∧
  ∀ l, is_Some (dsl.Heap w !! l) → last (dsl.Stack w) ≠ Some l →
       dsl.Heap (dsl.store e n w') !! l = dsl.Heap w !! l.
Proof.
  intros Hext Hcur. destruct (extends_protocol w w' Hext) as (Hst & Hdom & Hfr).
  apply Current_Ref in Hcur. rewrite Hst in Hcur. simpl. split_and!; [done| |].
  - rewrite dom_insert_L. set_solver.
  - intros l Hl Hne. rewrite lookup_insert_ne by congruence. by apply Hfr.
Qed.

Lemma extends_same_protocol w w' w'' :
  dsl.extends w w' → dsl.Heap w'' = dsl.Heap w' → dsl.Stack w'' = dsl.Stack w' →
  dsl.Stack w'' = dsl.Stack w ∧
  dom (dsl.Heap w) ⊆ dom (dsl.Heap w'') ∧
  ∀ l, is_Some (dsl.Heap w !! l) → last (dsl.Stack w) ≠ Some l →
       dsl.Heap w'' !! l = dsl.Heap w !! l.
Proof.
  intros Hext Hh Hs. rewrite Hh, Hs. by apply extends_protocol.
Qed.

(** The world [Server] dispatches on extends the world it was called
    in, and holds the new server. *)
Lemma Server_before_dispatch (url : string) (fn : list (option DSLFunc)) w :
  (∀ f, head fn = Some (Some f) → dsl.scoped call f) →
  ∃ (server : dsl.loc) (w3 : dsl.World DSLFunc),
    dsl.Server call url fn w
    = match dsl.Current w3 with
      | dsl.Ref e =>
          match dsl.Heap w3 !! e with
          | Some (dsl.NAPI e') =>
              dsl.store e (dsl.NAPI (dsl.API_append_Server server e')) w3
          | Some (dsl.NService e') =>
              dsl.store e (dsl.NService (dsl.Service_append_Server server e'))
                w3
          | _ => dsl.IncompatibleDSL "Server" w3
          end
      | dsl.Top => dsl.IncompatibleDSL "Server" w3
      end ∧
    dsl.extends w w3 ∧
    dsl.Heap w !! server = None ∧
    is_Some (dsl.Heap w3 !! server) ∧
    (head fn = None ∨ head fn = Some None →
     dsl.Heap w3 !! server = Some (dsl.NServer {| dsl.Server_URL := url |}) ∧
     dsl.Errors w3
     = dsl.Errors w
       ++ (if decide (1 < length fn)
           then ["too many arguments given to Server"] else [])
       ++ (if decide (url = "") then ["Server URL cannot be empty"] else [])).
Proof.
  intros Hscoped. unfold dsl.Server.
  set (w0 := if decide (1 < length fn) then _ else w).
  assert (dsl.extends w w0 ∧ dsl.Heap w0 = dsl.Heap w ∧
          dsl.Errors w0
          = dsl.Errors w
            ++ (if decide (1 < length fn)
                then ["too many arguments given to Server"] else []))
    as (Hext0 & Hheap0 & Herr0).
  { unfold w0. case_decide; simpl; [|by rewrite app_nil_r].
    split; [apply extends_ReportError|done]. }
  set (node := dsl.NServer {| dsl.Server_URL := url |}).
  pose proof (extends_alloc node w0) as Hext1.
  pose proof (alloc_Heap node w0) as Hh1.
  assert (dsl.Errors (dsl.alloc node w0).2 = dsl.Errors w0) as He1 by done.
  destruct (declare_extends call node (default None (head fn)) w0)
    as (Hext2 & Hfresh & Hsome).
  { intros f Hf. apply Hscoped. destruct fn as [|[g|] fn']; by simplify_eq/=. }
  rewrite Hheap0 in Hfresh.
  destruct (dsl.alloc node w0) as [server w1]. cbn [fst snd] in *.
  set (w2 := match fn with fn0 :: _ => _ | [] => w1 end).
  assert (dsl.extends w0 w2 ∧ is_Some (dsl.Heap w2 !! server) ∧
          (head fn = None ∨ head fn = Some None → w2 = w1))
    as (Hext02 & Hsome2 & Hnil2).
  { unfold w2. destruct fn as [|fn0 fn']; cbn [head default] in *.
    - split_and!; [done| |done]. rewrite Hh1, lookup_insert_eq. by eexists.
    - split_and!; [done|done|]. by intros [[=]|[= ->]]. }
  set (w3 := if decide (url = "") then _ else w2).
  exists server, w3. split_and!; [done| | | |].
  - apply (extends_trans _ w0); [done|]. apply (extends_trans _ w2); [done|].
    unfold w3. destruct (decide (url = ""));
      [apply extends_ReportError|apply extends_refl].
  - done.
  - unfold w3. by destruct (decide (url = "")).
  - intros Hfn. unfold w3. rewrite (Hnil2 Hfn). split.
    + destruct (decide (url = "")); simpl; rewrite Hh1;
        apply lookup_insert_eq.
    + destruct (decide (url = "")); simpl; rewrite He1, Herr0;
        [by rewrite <- app_assoc|by rewrite app_nil_r].
Qed.
End declarations_protocol.

Section server_appends.
Context {DSLFunc : Type}.
Variable call : DSLFunc → dsl.World DSLFunc → dsl.World DSLFunc.
Implicit Types w : dsl.World DSLFunc.
Implicit Types n : dsl.Node DSLFunc.

(** [Server] called with any URL while an API or a service is being
    defined appends the new server to its list and changes no other
    node. *)
Lemma Server_appends (url : string) (fn : list (option DSLFunc)) w
    (e : dsl.loc) n (servers : list dsl.loc) :
  dsl.Current w = dsl.Ref e →
  dsl.Heap w !! e = Some n →
  dsl.Servers n = Some servers →
  (∀ f, head fn = Some (Some f) → dsl.scoped call f) →
  ∃ server n',
    dsl.Heap w !! server = None ∧
    dsl.Heap (dsl.Server call url fn w) !! e = Some n' ∧
    dsl.Servers n' = Some (servers ++ [server]) ∧
    dsl.Stack (dsl.Server call url fn w) = dsl.Stack w ∧
    (∀ l, is_Some (dsl.Heap w !! l) → l ≠ e →
          dsl.Heap (dsl.Server call url fn w) !! l = dsl.Heap w !! l) ∧
    (head fn = None ∨ head fn = Some None →
     dsl.Heap (dsl.Server call url fn w) !! server
     = Some (dsl.NServer {| dsl.Server_URL := url |}) ∧
     dsl.Errors (dsl.Server call url fn w)
     = dsl.Errors w
       ++ (if decide (1 < length fn)
           then ["too many arguments given to Server"] else [])
       ++ (if decide (url = "") then ["Server URL cannot be empty"] else [])).
Proof.
  intros Hcur He Hservers Hscoped.
  destruct (Server_before_dispatch call url fn w Hscoped)
    as (server & w3 & -> & Hext & Hfresh & Hsome & Hnil).
  rewrite (extends_Current _ _ Hext), Hcur.
  destruct Hext as [Hst Hh].
  rewrite (Hh e) by (rewrite He; by eexists). rewrite He.
  assert (server ≠ e) as Hne by congruence.
  exists server.
  destruct n as [a|s| | | | | | |]; try done; simpl in Hservers;
    injection Hservers as <-; eexists; simpl;
    (split_and!;
     [done
     |by rewrite lookup_insert_eq
     |done
     |done
     |by intros l Hl Hle; rewrite lookup_insert_ne by done; apply Hh
     |by intros Hfn; destruct (Hnil Hfn) as [Hs Herr];
         rewrite lookup_insert_ne by done]).
Qed.
End server_appends.

(** Two [Server] calls in a row, without closure, while an API or a service
    is being defined: the two new servers are different pointers, they are
    appended to the server list in the order of the calls, and each holds
    the URL of its call. *)
Theorem Server_keeps_call_order {DSLFunc : Type}
    (call : DSLFunc → dsl.World DSLFunc → dsl.World DSLFunc)
    (url1 url2 : string) (w : dsl.World DSLFunc)
    (e : dsl.loc) (n : dsl.Node DSLFunc) (servers : list dsl.loc) :
  dsl.Current w = dsl.Ref e →
  dsl.Heap w !! e = Some n →
  dsl.Servers n = Some servers →
  ∃ server1 server2 n',
    server1 ≠ server2 ∧
    dsl.Heap w !! server1 = None ∧ dsl.Heap w !! server2 = None ∧
    dsl.Heap (dsl.Server call url2 [] (dsl.Server call url1 [] w)) !! e
    = Some n' ∧
    dsl.Servers n' = Some (servers ++ [server1; server2]) ∧
    dsl.Heap (dsl.Server call url2 [] (dsl.Server call url1 [] w)) !! server1
    = Some (dsl.NServer {| dsl.Server_URL := url1 |}) ∧
    dsl.Heap (dsl.Server call url2 [] (dsl.Server call url1 [] w)) !! server2
    = Some (dsl.NServer {| dsl.Server_URL := url2 |}).
Proof.
  intros Hcur He Hservers.
  destruct (Server_appends call url1 [] w e n servers Hcur He Hservers)
    as (s1 & n1 & Hfresh1 & He1 & Hservers1 & Hst1 & Hother1 & Hnil1);
    [done|].
  destruct (Hnil1 (or_introl eq_refl)) as [Hs1 _].
  set (w1 := dsl.Server call url1 [] w) in *.
  assert (dsl.Current w1 = dsl.Ref e) as Hcur1.
  { apply Current_Ref. rewrite Hst1. by apply Current_Ref. }
  destruct (Server_appends call url2 [] w1 e n1 (servers ++ [s1])
              Hcur1 He1 Hservers1)
    as (s2 & n2 & Hfresh2 & He2 & Hservers2 & Hst2 & Hother2 & Hnil2);
    [done|].
  destruct (Hnil2 (or_introl eq_refl)) as [Hs2 _].
  assert (s1 ≠ e) as Hne1 by congruence.
  assert (s1 ≠ s2) as Hne12 by congruence.
  exists s1, s2, n2. split_and!; try done.
  - destruct (dsl.Heap w !! s2) as [x|] eqn:Hx; [|done].
    destruct (decide (s2 = e)) as [->|Hne2]; [congruence|].
    rewrite <- (Hother1 s2), Hfresh2 in Hx; [done|by rewrite Hx; eexists|done].
  - by rewrite Hservers2, <- app_assoc.
  - rewrite Hother2; [done|by rewrite Hs1; eexists|done].
Qed.

Lemma Server_keeps_call_order_witness :
  dsl.Current sample.API_body = dsl.Ref 1%positive ∧
  ∃ server1 server2 n',
    dsl.Heap (dsl.Server dsl.Title "https://b" []
                (dsl.Server dsl.Title "https://a" [] sample.API_body))
      !! 1%positive = Some n' ∧
    dsl.Servers n' = Some [server1; server2] ∧
    dsl.Heap (dsl.Server dsl.Title "https://b" []
                (dsl.Server dsl.Title "https://a" [] sample.API_body))
      !! server1
    = Some (dsl.NServer {| dsl.Server_URL := "https://a" |}) ∧
    dsl.Heap (dsl.Server dsl.Title "https://b" []
                (dsl.Server dsl.Title "https://a" [] sample.API_body))
      !! server2
    = Some (dsl.NServer {| dsl.Server_URL := "https://b" |}).
Proof.
  split; [reflexivity|].
  destruct (Server_keeps_call_order dsl.Title "https://a" "https://b"
              sample.API_body 1%positive
              (dsl.NAPI {| dsl.API_DSLFunc := None; dsl.API_Name := "adder";
                           dsl.API_Title := ""; dsl.API_Version := "";
                           dsl.API_TermsOfService := "";
                           dsl.API_Contact := None; dsl.API_License := None;
                           dsl.API_Docs := None; dsl.API_Servers := [] |})
              [] eq_refl eq_refl eq_refl)
    as (s1 & s2 & n' & _ & _ & _ & He & Hservers & Hs1 & Hs2).
  exists s1, s2, n'. split_and!; assumption.
Defined.

(** [Server] called with nil closures only, while an API or a service is
    being defined, records exactly the diagnostics of its arguments (more
    than one closure, the empty URL), in this order, and whatever it
    records it appends a new server that holds the URL. *)
Theorem Server_argument_diagnostics {DSLFunc : Type}
    (call : DSLFunc → dsl.World DSLFunc → dsl.World DSLFunc)
    (url : string) (fn : list (option DSLFunc)) (w : dsl.World DSLFunc)
    (e : dsl.loc) (n : dsl.Node DSLFunc) (servers : list dsl.loc) :
  dsl.Current w = dsl.Ref e →
  dsl.Heap w !! e = Some n →
  dsl.Servers n = Some servers →
  head fn = None ∨ head fn = Some None →
  dsl.Errors (dsl.Server call url fn w)
  = dsl.Errors w
    ++ (if decide (1 < length fn)
        then ["too many arguments given to Server"] else [])
    ++ (if decide (url = "") then ["Server URL cannot be empty"] else []) ∧
  ∃ server n',
    dsl.Heap w !! server = None ∧
    dsl.Heap (dsl.Server call url fn w) !! server
    = Some (dsl.NServer {| dsl.Server_URL := url |}) ∧
    dsl.Heap (dsl.Server call url fn w) !! e = Some n' ∧
    dsl.Servers n' = Some (servers ++ [server]).
Proof.
  intros Hcur He Hservers Hfn.
  destruct (Server_appends call url fn w e n servers Hcur He Hservers)
    as (server & n' & Hfresh & He' & Hservers' & _ & _ & Hnil).
  { intros f Hf. destruct Hfn as [Hfn|Hfn]; congruence. }
  destruct (Hnil Hfn) as [Hs Herr]. split; [done|].
  by exists server, n'.
Qed.

Lemma Server_argument_diagnostics_witness :
  dsl.Current sample.API_body = dsl.Ref 1%positive ∧
  dsl.Errors (dsl.Server dsl.Title "" [None; Some "title"] sample.API_body)
  = ["too many arguments given to Server"; "Server URL cannot be empty"].
Proof.
  split; [reflexivity|].
  destruct (Server_argument_diagnostics dsl.Title "" [None; Some "title"]
              sample.API_body 1%positive
              (dsl.NAPI {| dsl.API_DSLFunc := None; dsl.API_Name := "adder";
                           dsl.API_Title := ""; dsl.API_Version := "";
                           dsl.API_TermsOfService := "";
                           dsl.API_Contact := None; dsl.API_License := None;
                           dsl.API_Docs := None; dsl.API_Servers := [] |})
              [] eq_refl eq_refl eq_refl (or_intror eq_refl))
    as [Herr _].
  rewrite Herr. reflexivity.
Defined.

(** The steps of a declaration once its closure has run. *)
Ltac declaration_cases w2 :=
  destruct (dsl.Current w2) as [|?e] eqn:?Hcur;
    [|destruct (dsl.Heap w2 !! e) as [[?a|?s|?s|?c|?l|?d|?o|?o|?o]|] eqn:?He].

(** The declarations that run a closure follow the evaluation protocol
    whenever the closures do, and so does one step after another: a closure
    made of calls to the functions of the API DSL follows the protocol. *)
Theorem declarations_follow_protocol {DSLFunc : Type}
    (call : DSLFunc → dsl.World DSLFunc → dsl.World DSLFunc) :
  (∀ f, dsl.scoped call f) →
  (∀ url fn, dsl.follows_protocol (dsl.Server call url fn)) ∧
  (∀ fn, dsl.follows_protocol (dsl.Contact call fn)) ∧
  (∀ fn, dsl.follows_protocol (dsl.License call fn)) ∧
  (∀ fn, dsl.follows_protocol (dsl.Docs call fn)) ∧
  (∀ g1 g2 : dsl.World DSLFunc → dsl.World DSLFunc,
     dsl.follows_protocol g1 → dsl.follows_protocol g2 →
     dsl.follows_protocol (g2 ∘ g1)).
Proof.
  intros Hscoped.
  assert (∀ (w w2 : dsl.World DSLFunc) caller,
            dsl.extends w w2 →
            dsl.Stack (dsl.IncompatibleDSL caller w2) = dsl.Stack w ∧
            dom (dsl.Heap w) ⊆ dom (dsl.Heap (dsl.IncompatibleDSL caller w2)) ∧
            ∀ l, is_Some (dsl.Heap w !! l) → last (dsl.Stack w) ≠ Some l →
                 dsl.Heap (dsl.IncompatibleDSL caller w2) !! l
                 = dsl.Heap w !! l) as Hreject.
  { intros w w2 caller Hext. by apply (extends_same_protocol w w2). }
  split_and!.
  - intros url fn w.
    destruct (Server_before_dispatch call url fn w) as (server & w3 & -> & Hext & _);
      [by intros f _|].
    declaration_cases w3;
      first [by apply extends_store_protocol | by apply Hreject].
  - intros fn w. unfold dsl.Contact.
    destruct (declare_extends call
                (dsl.NContact {| dsl.Contact_Name := ""; dsl.Contact_Email := "";
                                 dsl.Contact_URL := "" |}) fn w)
      as (Hext & _ & _); [by intros f _|].
    destruct (dsl.alloc _ w) as [c w1]. cbn [fst snd] in *.
    destruct (dsl.Execute call fn c w1) as [[|] w2]; cbn [fst snd negb] in *;
      [|by apply extends_protocol].
    declaration_cases w2;
      first [by apply extends_store_protocol | by apply Hreject].
  - intros fn w. unfold dsl.License.
    destruct (declare_extends call
                (dsl.NLicense {| dsl.License_Name := ""; dsl.License_URL := "" |})
                fn w) as (Hext & _ & _); [by intros f _|].
    destruct (dsl.alloc _ w) as [c w1]. cbn [fst snd] in *.
    destruct (dsl.Execute call fn c w1) as [[|] w2]; cbn [fst snd negb] in *;
      [|by apply extends_protocol].
    declaration_cases w2;
      first [by apply extends_store_protocol | by apply Hreject].
  - intros fn w. unfold dsl.Docs.
    destruct (declare_extends call
                (dsl.NDocs {| dsl.Docs_Description := ""; dsl.Docs_URL := "" |})
                fn w) as (Hext & _ & _); [by intros f _|].
    destruct (dsl.alloc _ w) as [c w1]. cbn [fst snd] in *.
    destruct (dsl.Execute call fn c w1) as [[|] w2]; cbn [fst snd negb] in *;
      [|by apply extends_protocol].
    declaration_cases w2;
      first [by apply extends_store_protocol | by apply Hreject].
  - intros g1 g2 H1 H2 w. simpl.
    destruct (H1 w) as (Hs1 & Hd1 & Hf1), (H2 (g1 w)) as (Hs2 & Hd2 & Hf2).
    split_and!; [congruence|by transitivity (dom (dsl.Heap (g1 w)))|].
    intros l Hl Hne. rewrite Hf2, Hf1; [done..| |].
    + by rewrite Hf1.
    + by rewrite Hs1.
Qed.

Lemma declarations_follow_protocol_witness :
  dsl.Stack ((dsl.Contact dsl.Title (Some "title")
              ∘ dsl.Server dsl.Title "https://a" [Some "title"])
               sample.API_body)
  = dsl.Stack sample.API_body.
Proof.
  destruct (declarations_follow_protocol dsl.Title Title_scoped)
    as (Hserver & Hcontact & _ & _ & Hseq).
  exact (proj1 (Hseq (dsl.Server dsl.Title "https://a" [Some "title"])
                  (dsl.Contact dsl.Title (Some "title"))
                  (Hserver _ _) (Hcontact _) sample.API_body)).
Defined.

(** When the closure of [Contact], [License] or [Docs] records a
    diagnostic, the declaration is abandoned: nothing is attached, no
    further diagnostic is recorded, and every node that existed is as it
    was (the node made for the closure is left unreferenced). *)
Theorem failed_closure_abandons_declaration {DSLFunc : Type}
    (call : DSLFunc → dsl.World DSLFunc → dsl.World DSLFunc)
    (fn : option DSLFunc) (w : dsl.World DSLFunc) :
  (∀ f, fn = Some f → dsl.scoped call f) →
  ((dsl.Execute call fn
      (dsl.alloc (dsl.NContact {| dsl.Contact_Name := "";
                                  dsl.Contact_Email := "";
                                  dsl.Contact_URL := "" |}) w).1
      (dsl.alloc (dsl.NContact {| dsl.Contact_Name := "";
                                  dsl.Contact_Email := "";
                                  dsl.Contact_URL := "" |}) w).2).1 = false →
   dsl.extends w (dsl.Contact call fn w) ∧
   dsl.Errors (dsl.Contact call fn w)
   = dsl.Errors
       (dsl.Execute call fn
          (dsl.alloc (dsl.NContact {| dsl.Contact_Name := "";
                                      dsl.Contact_Email := "";
                                      dsl.Contact_URL := "" |}) w).1
          (dsl.alloc (dsl.NContact {| dsl.Contact_Name := "";
                                      dsl.Contact_Email := "";
                                      dsl.Contact_URL := "" |}) w).2).2) ∧
  ((dsl.Execute call fn
      (dsl.alloc (dsl.NLicense {| dsl.License_Name := "";
                                  dsl.License_URL := "" |}) w).1
      (dsl.alloc (dsl.NLicense {| dsl.License_Name := "";
                                  dsl.License_URL := "" |}) w).2).1 = false →
   dsl.extends w (dsl.License call fn w) ∧
   dsl.Errors (dsl.License call fn w)
   = dsl.Errors
       (dsl.Execute call fn
          (dsl.alloc (dsl.NLicense {| dsl.License_Name := "";
                                      dsl.License_URL := "" |}) w).1
          (dsl.alloc (dsl.NLicense {| dsl.License_Name := "";
                                      dsl.License_URL := "" |}) w).2).2) ∧
  ((dsl.Execute call fn
      (dsl.alloc (dsl.NDocs {| dsl.Docs_Description := "";
                               dsl.Docs_URL := "" |}) w).1
      (dsl.alloc (dsl.NDocs {| dsl.Docs_Description := "";
                               dsl.Docs_URL := "" |}) w).2).1 = false →
   dsl.extends w (dsl.Docs call fn w) ∧
   dsl.Errors (dsl.Docs call fn w)
   = dsl.Errors
       (dsl.Execute call fn
          (dsl.alloc (dsl.NDocs {| dsl.Docs_Description := "";
                                   dsl.Docs_URL := "" |}) w).1
          (dsl.alloc (dsl.NDocs {| dsl.Docs_Description := "";
                                   dsl.Docs_URL := "" |}) w).2).2).
Proof.
  intros Hscoped.
  assert (∀ n (k : dsl.World DSLFunc → dsl.World DSLFunc),
            (dsl.Execute call fn (dsl.alloc n w).1 (dsl.alloc n w).2).1
              = false →
            dsl.extends w
              (let '(def, w1) := dsl.alloc n w in
               let '(ok, w2) := dsl.Execute call fn def w1 in
               if negb ok then w2 else k w2) ∧
            dsl.Errors
              (let '(def, w1) := dsl.alloc n w in
               let '(ok, w2) := dsl.Execute call fn def w1 in
               if negb ok then w2 else k w2)
            = dsl.Errors
                (dsl.Execute call fn (dsl.alloc n w).1 (dsl.alloc n w).2).2)
    as Hrun.
  { intros n k Hfail.
    destruct (declare_extends call n fn w Hscoped) as (Hext & _ & _).
    destruct (dsl.alloc n w) as [def w1]. cbn [fst snd] in *.
    destruct (dsl.Execute call fn def w1) as [ok w2]. cbn [fst snd] in *.
    by subst ok. }
  split_and!; apply Hrun.
Qed.

Lemma failed_closure_abandons_declaration_witness :
  dsl.Heap (dsl.Contact dsl.Title (Some "title") sample.API_body) !! 1%positive
  = dsl.Heap sample.API_body !! 1%positive ∧
  dsl.Errors (dsl.Contact dsl.Title (Some "title") sample.API_body)
  = ["invalid use of Title in *expr.ContactExpr"].
Proof.
  destruct (failed_closure_abandons_declaration dsl.Title (Some "title")
              sample.API_body) as ([[_ Hsame] Herrors] & _ & _).
  - intros f _. apply Title_scoped.
  - reflexivity.
  - split.
    + apply Hsame. by eexists.
    + rewrite Herrors. reflexivity.
Defined.

(** [Server] called at top level, or while an expression that has no
    server list is being defined, records the incompatible DSL diagnostic
    last and changes no node that existed; the server it has made is left
    unreferenced. *)
Theorem Server_wrong_context {DSLFunc : Type}
    (call : DSLFunc → dsl.World DSLFunc → dsl.World DSLFunc)
    (url : string) (fn : list (option DSLFunc)) (w : dsl.World DSLFunc) :
  (∀ f, head fn = Some (Some f) → dsl.scoped call f) →
  (dsl.Current w = dsl.Top ∨
   ∃ e n, dsl.Current w = dsl.Ref e ∧ dsl.Heap w !! e = Some n ∧
          dsl.Servers n = None) →
  dsl.extends w (dsl.Server call url fn w) ∧
  (∃ ty, last (dsl.Errors (dsl.Server call url fn w))
         = Some (fmt.Sprintf "invalid use of %s in %s" ["Server"; ty])) ∧
  ∃ server, dsl.Heap w !! server = None ∧
            is_Some (dsl.Heap (dsl.Server call url fn w) !! server).
Proof.
  intros Hscoped Hctx.
  destruct (Server_before_dispatch call url fn w Hscoped)
    as (server & w3 & -> & Hext & Hfresh & Hsome & _).
  assert (match dsl.Current w3 with
          | dsl.Ref e =>
              match dsl.Heap w3 !! e with
              | Some (dsl.NAPI e') =>
                  dsl.store e (dsl.NAPI (dsl.API_append_Server server e')) w3
              | Some (dsl.NService e') =>
                  dsl.store e
                    (dsl.NService (dsl.Service_append_Server server e')) w3
              | _ => dsl.IncompatibleDSL "Server" w3
              end
          | dsl.Top => dsl.IncompatibleDSL "Server" w3
          end = dsl.IncompatibleDSL "Server" w3) as ->.
  { rewrite (extends_Current _ _ Hext).
    destruct Hctx as [->|(e & n & -> & He & Hn)]; [done|].
    destruct Hext as [_ Hh]. rewrite (Hh e) by (rewrite He; by eexists).
    rewrite He. by destruct n. }
  split_and!.
  - apply (extends_trans _ w3); [done|apply extends_IncompatibleDSL].
  - eexists. unfold dsl.IncompatibleDSL. simpl. apply last_snoc.
  - by exists server.
Qed.

Lemma Server_wrong_context_witness :
  dsl.Current (dsl.empty_World (DSLFunc := string)) = dsl.Top ∧
  dsl.Errors (dsl.Server dsl.Title "https://a" [] dsl.empty_World)
  = ["invalid use of Server in eval.TopExpr"] ∧
  dsl.Root_API (dsl.Server dsl.Title "https://a" [] dsl.empty_World) = None.
Proof.
  split; [reflexivity|].
  destruct (Server_wrong_context dsl.Title "https://a" []
              (dsl.empty_World (DSLFunc := string))) as (_ & _ & _).
  - intros f [=].
  - by left.
  - split; reflexivity.
Defined.

Section contact_setters.
Context {DSLFunc : Type}.
Implicit Types w : dsl.World DSLFunc.

(** The setters of a contact, while the contact is being defined. *)
Lemma contact_setters w (c : dsl.loc) (d : dsl.ContactExpr)
    (name email url : string) :
  dsl.Current w = dsl.Ref c →
  dsl.Heap w !! c = Some (dsl.NContact d) →
  dsl.URL url (dsl.Email email (dsl.Name name w))
  = dsl.store c (dsl.NContact {| dsl.Contact_Name := name;
                                 dsl.Contact_Email := email;
                                 dsl.Contact_URL := url |}) w.
Proof.
  intros Hcur He.
  assert (∀ w' n, dsl.Current (dsl.store c n w') = dsl.Current w') as Hc
    by done.
  assert (∀ w' n, dsl.Heap (dsl.store c n w') !! c = Some n) as Hh.
  { intros w' n. apply lookup_insert_eq. }
  assert (∀ w' n1 n2, dsl.store c n1 (dsl.store c n2 w') = dsl.store c n1 w')
    as Hover.
  { intros w' n1 n2. unfold dsl.store, dsl.set_Heap. simpl.
    by rewrite insert_insert_eq. }
  unfold dsl.Name at 1. rewrite Hcur, He.
  unfold dsl.Email at 1. rewrite Hc, Hcur, Hh, Hover.
  unfold dsl.URL at 1. rewrite Hc, Hcur, Hh, Hover.
  reflexivity.
Qed.
End contact_setters.

(** [Contact] with a closure that calls [Name], [Email] and [URL], while
    an API is being defined: the API gets a new contact that holds the
    three values, no diagnostic is recorded and the stack is as before. *)
Theorem Contact_round_trip {DSLFunc : Type}
    (call : DSLFunc → dsl.World DSLFunc → dsl.World DSLFunc)
    (f : DSLFunc) (name email url : string) (w : dsl.World DSLFunc)
    (e : dsl.loc) (a : dsl.APIExpr DSLFunc) :
  (∀ w', call f w' = dsl.URL url (dsl.Email email (dsl.Name name w'))) →
  dsl.Current w = dsl.Ref e →
  dsl.Heap w !! e = Some (dsl.NAPI a) →
  ∃ contact,
    dsl.Heap w !! contact = None ∧
    dsl.Heap (dsl.Contact call (Some f) w) !! contact
    = Some (dsl.NContact {| dsl.Contact_Name := name;
                            dsl.Contact_Email := email;
                            dsl.Contact_URL := url |}) ∧
    dsl.Heap (dsl.Contact call (Some f) w) !! e
    = Some (dsl.NAPI (dsl.API_with_Contact contact a)) ∧
    dsl.Errors (dsl.Contact call (Some f) w) = dsl.Errors w ∧
    dsl.Stack (dsl.Contact call (Some f) w) = dsl.Stack w.
Proof.
  intros Hcall Hcur He.
  set (node := dsl.NContact {| dsl.Contact_Name := ""; dsl.Contact_Email := "";
                               dsl.Contact_URL := "" |} : dsl.Node DSLFunc).
  pose proof (alloc_fresh node w) as Hfresh.
  pose proof (alloc_Heap node w) as Hheap1.
  assert (dsl.Stack (dsl.alloc node w).2 = dsl.Stack w ∧
          dsl.Errors (dsl.alloc node w).2 = dsl.Errors w) as [Hstack1 Herr1]
    by done.
  unfold dsl.Contact. fold node.
  destruct (dsl.alloc node w) as [contact w1]. cbn [fst snd] in *.
  assert (contact ≠ e) as Hne by congruence.
  exists contact.
  set (pushed := dsl.set_Stack (dsl.Stack w1 ++ [contact]) w1).
  assert (call f pushed
          = dsl.store contact
              (dsl.NContact {| dsl.Contact_Name := name;
                               dsl.Contact_Email := email;
                               dsl.Contact_URL := url |}) pushed) as Hrun.
  { rewrite Hcall.
    apply (contact_setters pushed contact
             {| dsl.Contact_Name := ""; dsl.Contact_Email := "";
                dsl.Contact_URL := "" |} name email url).
    - apply Current_Ref. apply last_snoc.
    - unfold pushed. simpl. rewrite Hheap1. apply lookup_insert_eq. }
  set (final := dsl.NContact {| dsl.Contact_Name := name;
                                dsl.Contact_Email := email;
                                dsl.Contact_URL := url |} : dsl.Node DSLFunc)
    in *.
  set (w2 := {| dsl.Heap := <[contact := final]> (dsl.Heap w1);
                dsl.Stack := dsl.Stack w1; dsl.Errors := dsl.Errors w1;
                dsl.Root_API := dsl.Root_API w1 |}).
  assert (dsl.Execute call (Some f) contact w1 = (true, w2)) as Hexec.
  { unfold dsl.Execute. fold pushed. rewrite Hrun.
    unfold dsl.store, dsl.set_Heap, dsl.set_Stack, pushed. simpl.
    rewrite length_app. simpl.
    replace (length (dsl.Stack w1) + 1 - 1) with (length (dsl.Stack w1))
      by lia.
    rewrite take_app_length, bool_decide_true by done. reflexivity. }
  rewrite Hexec. cbn [negb].
  assert (dsl.Current w2 = dsl.Ref e) as ->.
  { apply Current_Ref. simpl. rewrite Hstack1. by apply Current_Ref. }
  assert (dsl.Heap w2 !! e = Some (dsl.NAPI a)) as ->.
  { simpl. by rewrite lookup_insert_ne, Hheap1, lookup_insert_ne. }
  simpl. split_and!; [done| | |done|done].
  - by rewrite lookup_insert_ne, lookup_insert_eq.
  - by rewrite lookup_insert_eq.
Qed.

Lemma Contact_round_trip_witness :
  dsl.Current sample.Script_API_body = dsl.Ref 1%positive ∧
  ∃ contact,
    dsl.Heap (dsl.Contact sample.run
                (Some [sample.CName "n"; sample.CEmail "e"; sample.CURL "u"])
                sample.Script_API_body) !! contact
    = Some (dsl.NContact {| dsl.Contact_Name := "n"; dsl.Contact_Email := "e";
                            dsl.Contact_URL := "u" |}) ∧
    dsl.Errors (dsl.Contact sample.run
                  (Some [sample.CName "n"; sample.CEmail "e"; sample.CURL "u"])
                  sample.Script_API_body) = [].
Proof.
  split; [reflexivity|].
  destruct (Contact_round_trip sample.run
              [sample.CName "n"; sample.CEmail "e"; sample.CURL "u"]
              "n" "e" "u" sample.Script_API_body 1%positive
              {| dsl.API_DSLFunc := None; dsl.API_Name := "adder";
                 dsl.API_Title := ""; dsl.API_Version := "";
                 dsl.API_TermsOfService := ""; dsl.API_Contact := None;
                 dsl.API_License := None; dsl.API_Docs := None;
                 dsl.API_Servers := [] |})
    as (contact & _ & Hcontact & _ & Herrors & _).
  - intros w'. reflexivity.
  - reflexivity.
  - reflexivity.
  - exists contact. split; [exact Hcontact|exact Herrors].
Defined.
